(** * kaleidoscope.rs: lexer, parser and IR generator

    A shallow embedding of [src/lexer.rs], [src/parser.rs] and [src/ir.rs].
    Characters are Unicode scalar values (Rust [char]) written as [N];
    Rust [String]s are lists of them.  [f64] values are Rocq's primitive
    binary64 floats. *)

From Stdlib Require Import ZArith NArith List String Ascii Bool Lia.
From Stdlib Require Import Floats.
Import ListNotations.

Open Scope list_scope.
Set Warnings "-inexact-float,-register-all".

(** ** Common vocabulary *)

Inductive Result (T E : Type) : Type :=
| Ok (t : T)
| Err (e : E).
Arguments Ok {T E} t.
Arguments Err {T E} e.

Definition char := N.
Definition rstring := list char.

Definition rstring_eqb (a b : rstring) : bool :=
  if list_eq_dec N.eq_dec a b then true else false.

(** Rust string literals, for writing concrete inputs. *)
Fixpoint str (s : string) : rstring :=
  match s with
  | EmptyString => []
  | String a r => N_of_ascii a :: str r
  end.

(** [char::is_ascii_*] on Unicode scalar values. *)
Definition is_ascii_whitespace (c : char) : bool :=
  (c =? 32)%N || (c =? 9)%N || (c =? 10)%N || (c =? 12)%N || (c =? 13)%N.

Definition is_ascii_digit (c : char) : bool := (48 <=? c)%N && (c <=? 57)%N.

Definition is_ascii_alphabetic (c : char) : bool :=
  ((65 <=? c)%N && (c <=? 90)%N) || ((97 <=? c)%N && (c <=? 122)%N).

Definition is_ascii_alphanumeric (c : char) : bool :=
  is_ascii_alphabetic c || is_ascii_digit c.

Definition chr_dot : char := 46%N.
Definition chr_hash : char := 35%N.
Definition chr_lf : char := 10%N.
Definition chr_cr : char := 13%N.

(** ** Tokens *)

(** Modelled from the spec: [lexer::Operator], imported by parser.rs and
    ir.rs, is not defined in lexer.rs; its variants are the four matched by
    [Parser::get_prec] and [IRGenerator::gen]. *)
Inductive Operator : Type :=
| LessThan
| Plus
| Minus
| Times.

(** Modelled from the spec: the variants [OpenParenthesis],
    [CloseParenthesis], [Comma], [SemiColon] and [Operator], which parser.rs
    consumes, are missing from lexer.rs; the first five variants are
    lexer.rs's [Token]. *)
Inductive Token : Type :=
| EOF
| Def
| Extern
| Identifier (name : rstring)
| Number (value : float)
| OpenParenthesis
| CloseParenthesis
| Comma
| SemiColon
| TOperator (op : Operator).

(** ** [str::parse::<f64>] on the strings the lexer hands it *)

(** [ParseFloatError]'s kinds in the Rust standard library. *)
Inductive ParseFloatError : Type :=
| PFEmpty
| PFInvalid.

Fixpoint count_dots (s : rstring) : nat :=
  match s with
  | [] => 0
  | c :: r => (if (c =? chr_dot)%N then 1 else 0) + count_dots r
  end.

(** Value of the digits (the dot skipped) and number of digits after it. *)
Fixpoint decimal_of (s : rstring) (m : Z) (k : Z) (after_dot : bool)
  : option (Z * Z) :=
  match s with
  | [] => Some (m, k)
  | c :: r =>
      if (c =? chr_dot)%N then decimal_of r m k true
      else if is_ascii_digit c then
        decimal_of r (10 * m + Z.of_N (c - 48)) (if after_dot then k + 1 else k)
          after_dot
      else None
  end.

Fixpoint count_digits (s : rstring) : nat :=
  match s with
  | [] => 0
  | c :: r => (if is_ascii_digit c then 1 else 0) + count_digits r
  end.

(** [str::parse::<f64>] on strings over [0-9.] (the only ones the lexer
    passes it): at most one dot and at least one digit ("5.", ".5" are
    accepted, "." and "1.2.3" are not); the result is the decimal value
    correctly rounded to nearest-even binary64. *)
Definition parse_f64 (s : rstring) : Result float ParseFloatError :=
  match s with
  | [] => Err PFEmpty
  | _ =>
      if (1 <? count_dots s)%nat || (count_digits s =? 0)%nat then Err PFInvalid
      else
        match decimal_of s 0 0 false with
        | None => Err PFInvalid
        | Some (m, k) =>
            match m with
            | Zpos pm =>
                Ok (SF2Prim (SFdiv prec emax (S754_finite false pm 0)
                                   (S754_finite false (Z.to_pos (10 ^ k)) 0)))
            | _ => Ok 0%float
            end
        end
  end.

(** ** Lexer (lexer.rs) *)

Inductive LexerError : Type :=
| InvalidNumber (err : ParseFloatError)
| UnknownInitial (c : char).

(** [Lexer<I>] over the remaining characters of its [Chars] iterator. *)
Record Lexer : Type := mkLexer {
  iter : list char;
  last_char : option char
}.

Definition iter_next (it : list char) : option char * list char :=
  match it with
  | [] => (None, [])
  | c :: r => (Some c, r)
  end.

Definition Lexer_new (it : list char) : Lexer :=
  let (c, r) := iter_next it in mkLexer r c.

Definition consume_char (s : Lexer) : Lexer :=
  let (c, r) := iter_next (iter s) in mkLexer r c.

Definition get_char (s : Lexer) : option char * Lexer :=
  (last_char s, consume_char s).

Fixpoint skip_chars_from (predicate : char -> bool) (lc : option char)
    (it : list char) {struct it} : Lexer :=
  match lc with
  | Some c =>
      if predicate c then
        match it with
        | [] => mkLexer [] None
        | c' :: r => skip_chars_from predicate (Some c') r
        end
      else mkLexer it lc
  | None => mkLexer it None
  end.

Definition skip_chars (predicate : char -> bool) (s : Lexer) : Lexer :=
  skip_chars_from predicate (last_char s) (iter s).

Fixpoint get_chars_from (predicate : char -> bool) (lc : option char)
    (it : list char) {struct it} : rstring * Lexer :=
  match lc with
  | Some c =>
      if predicate c then
        match it with
        | [] => ([c], mkLexer [] None)
        | c' :: r =>
            let (cs, s) := get_chars_from predicate (Some c') r in (c :: cs, s)
        end
      else ([], mkLexer it lc)
  | None => ([], mkLexer it None)
  end.

Definition get_chars (s : Lexer) (initial : char) (predicate : char -> bool)
  : rstring * Lexer :=
  let (cs, s') := get_chars_from predicate (last_char s) (iter s) in
  (initial :: cs, s').

Definition is_number_char (c : char) : bool :=
  is_ascii_digit c || (c =? chr_dot)%N.

Definition not_newline (c : char) : bool :=
  negb (c =? chr_lf)%N && negb (c =? chr_cr)%N.

(** [Lexer::get_token]; its tail call after a line comment is bounded by
    [fuel], one per retry: every retry has consumed the ['#']. *)
Fixpoint get_token_fuel (fuel : nat) (s : Lexer) : Result Token LexerError * Lexer :=
  let s := match last_char s with
           | Some c => if is_ascii_whitespace c then skip_chars is_ascii_whitespace s else s
           | None => s
           end in
  let (oc, s) := get_char s in
  match oc with
  | Some c =>
      if is_ascii_alphabetic c then
        let (ident, s) := get_chars s c is_ascii_alphanumeric in
        (Ok (if rstring_eqb ident (str "def") then Def
             else if rstring_eqb ident (str "extern") then Extern
             else Identifier ident), s)
      else if is_number_char c then
        let (num, s) := get_chars s c is_number_char in
        match parse_f64 num with
        | Ok x => (Ok (Number x), s)
        | Err e => (Err (InvalidNumber e), s)
        end
      else if (c =? chr_hash)%N then
        let s := skip_chars not_newline s in
        match last_char s with
        | Some _ =>
            match fuel with
            | S fuel' => get_token_fuel fuel' s
            | O => (Ok EOF, s)
            end
        | None => (Ok EOF, s)
        end
      else (Err (UnknownInitial c), s)
  | None => (Ok EOF, s)
  end.

Definition lexer_size (s : Lexer) : nat :=
  List.length (iter s) + match last_char s with Some _ => 1 | None => 0 end.

Definition get_token (s : Lexer) : Result Token LexerError * Lexer :=
  get_token_fuel (lexer_size s) s.

(** [impl Iterator for Lexer]: [next]. *)
Definition next (s : Lexer) : option (Result Token LexerError) * Lexer :=
  let (r, s') := get_token s in
  match r with
  | Ok EOF => (None, s')
  | Ok token => (Some (Ok token), s')
  | Err err => (Some (Err err), s')
  end.

(** The items an iteration over the lexer yields, and whether it reached
    [None] within [fuel] calls to [next]. *)
Fixpoint iterate (fuel : nat) (s : Lexer) : list (Result Token LexerError) * bool :=
  match fuel with
  | O => ([], false)
  | S fuel' =>
      match next s with
      | (None, _) => ([], true)
      | (Some item, s') => let (items, done) := iterate fuel' s' in (item :: items, done)
      end
  end.

(** ** Parser (parser.rs) *)

Record Prototype : Type := mkPrototype {
  name : rstring;
  args : list rstring
}.

(** [ExprAST]; its [Number], [Variable], [Prototype] and [Function] variants
    are named [NumberExpr], [VariableExpr], [PrototypeExpr], [FunctionExpr],
    apart from [Token::Number], the [Prototype] struct and Rocq keywords. *)
Inductive ExprAST : Type :=
| NumberExpr (value : float)
| VariableExpr (var : rstring)
| BinaryOp (op : Operator) (lhs rhs : ExprAST)
| Call (callee : rstring) (call_args : list ExprAST)
| PrototypeExpr (proto : Prototype)
| FunctionExpr (proto : Prototype) (body : ExprAST).

Definition ParserError := string.

(** The parser's [Peekable] iterator is the list of the remaining tokens;
    a parsing function returns its result with the tokens left. *)
Definition PResult (A : Type) := Result (A * list Token) ParserError.

Definition get_prec (op : Operator) : nat :=
  match op with
  | LessThan => 10
  | Plus => 20
  | Minus => 20
  | Times => 40
  end.

Definition peek_operator (ts : list Token) : option Operator :=
  match ts with
  | TOperator op :: _ => Some op
  | _ => None
  end.

(** [parse_expression], [parse_primary] (with its argument-list loop
    [parse_args]), [parse_parenthesis] and [parse_op_and_rhs] (its [loop]
    written as a tail call).  Each call spends one unit of [fuel]; every
    second call in a chain has consumed a token, so [2 * n + 2] units suffice
    for [n] tokens. *)
Fixpoint parse_expression (fuel : nat) (ts : list Token) : PResult ExprAST :=
  match fuel with
  | O => Err "Expected expression"%string
  | S fuel =>
      match parse_primary fuel ts with
      | Ok (lhs, ts) => parse_op_and_rhs fuel 0 lhs ts
      | Err e => Err e
      end
  end
with parse_primary (fuel : nat) (ts : list Token) : PResult ExprAST :=
  match fuel with
  | O => Err "Expected expression"%string
  | S fuel =>
      match ts with
      | Number value :: ts => Ok (NumberExpr value, ts)
      | Identifier nm :: ts =>
          match ts with
          | OpenParenthesis :: ts =>
              match ts with
              | CloseParenthesis :: ts' => Ok (Call nm [], ts')
              | _ =>
                  match parse_args fuel [] ts with
                  | Ok (call_args, ts) => Ok (Call nm call_args, List.tl ts)
                  | Err e => Err e
                  end
              end
          | _ => Ok (VariableExpr nm, ts)
          end
      | OpenParenthesis :: ts => parse_parenthesis fuel ts
      | _ => Err "Expected expression"%string
      end
  end
with parse_args (fuel : nat) (acc : list ExprAST) (ts : list Token)
  : PResult (list ExprAST) :=
  match fuel with
  | O => Err "Expected expression"%string
  | S fuel =>
      match parse_expression fuel ts with
      | Ok (arg, ts) =>
          let acc := acc ++ [arg] in
          match ts with
          | CloseParenthesis :: _ => Ok (acc, ts)
          | Comma :: ts => parse_args fuel acc ts
          | _ => Err "Expected ')' or ',' in argument list"%string
          end
      | Err e => Err e
      end
  end
with parse_parenthesis (fuel : nat) (ts : list Token) : PResult ExprAST :=
  match fuel with
  | O => Err "Expected expression"%string
  | S fuel =>
      match parse_expression fuel ts with
      | Ok (ast, CloseParenthesis :: ts) => Ok (ast, ts)
      | Ok (_, _) => Err "Expected ')'"%string
      | Err e => Err e
      end
  end
with parse_op_and_rhs (fuel : nat) (expr_prec : nat) (lhs : ExprAST)
    (ts : list Token) : PResult ExprAST :=
  match fuel with
  | O => Err "Expected expression"%string
  | S fuel =>
      match ts with
      | TOperator op :: ts' =>
          let token_prec := get_prec op in
          if (token_prec <? expr_prec)%nat then Ok (lhs, ts)
          else
            match parse_primary fuel ts' with
            | Err e => Err e
            | Ok (rhs, ts1) =>
                let rhs_res :=
                  match peek_operator ts1 with
                  | Some next_op =>
                      if (token_prec <? get_prec next_op)%nat
                      then parse_op_and_rhs fuel (token_prec + 1) rhs ts1
                      else Ok (rhs, ts1)
                  | None => Ok (rhs, ts1)
                  end in
                match rhs_res with
                | Err e => Err e
                | Ok (rhs, ts2) => parse_op_and_rhs fuel expr_prec (BinaryOp op lhs rhs) ts2
                end
            end
      | _ => Ok (lhs, ts)
      end
  end.

Fixpoint parse_prototype_args (ts : list Token) : list rstring * list Token :=
  match ts with
  | Identifier arg :: ts' => let (more, rest) := parse_prototype_args ts' in (arg :: more, rest)
  | _ => ([], ts)
  end.

Definition parse_prototype (ts : list Token) : PResult Prototype :=
  match ts with
  | Identifier nm :: ts =>
      match ts with
      | OpenParenthesis :: ts =>
          let (a, ts) := parse_prototype_args ts in
          match ts with
          | CloseParenthesis :: ts => Ok (mkPrototype nm a, ts)
          | _ => Err "Expected ')' in prototype"%string
          end
      | _ => Err "Expected '(' in prototype"%string
      end
  | _ => Err "Expected function name in prototype"%string
  end.

Definition expr_fuel (ts : list Token) : nat := 2 * List.length ts + 2.

Definition parse_defeinition (ts : list Token) : PResult ExprAST :=
  match parse_prototype ts with
  | Ok (proto, ts) =>
      match parse_expression (expr_fuel ts) ts with
      | Ok (body, ts) => Ok (FunctionExpr proto body, ts)
      | Err e => Err e
      end
  | Err e => Err e
  end.

Definition parse_extern (ts : list Token) : PResult ExprAST :=
  match parse_prototype ts with
  | Ok (proto, ts) => Ok (PrototypeExpr proto, ts)
  | Err e => Err e
  end.

(** The warnings [Parser::parse] prints on stderr. *)
Inductive ParseWarning : Type :=
| InvalidSyntax (remainds : list Token)
| ExpectedSemicolon.

(** The first [match] of [Parser::parse]: the statement itself. *)
Definition parse_statement (ts : list Token) : PResult ExprAST :=
  match ts with
  | Def :: ts => parse_defeinition ts
  | Extern :: ts => parse_extern ts
  | _ :: _ => parse_expression (expr_fuel ts) ts
  | [] => Err "Unimplemented"%string
  end.

(** [Parser::parse]: the statement, the warning it printed, the tokens left. *)
Definition parse (ts : list Token)
  : Result (ExprAST * option ParseWarning * list Token) ParserError :=
  match parse_statement ts with
  | Err e => Err e
  | Ok (ast, ts) =>
      match ts with
      | SemiColon :: ts => Ok (ast, None, ts)
      | _ :: _ => Ok (ast, Some (InvalidSyntax ts), [])
      | [] => Ok (ast, Some ExpectedSemicolon, [])
      end
  end.

(** ** IR generator (ir.rs) over a model of the LLVM module *)

Inductive LLVMError : Type :=
| VariableNotFound (var : rstring)
| FunctionNotFound (fn : rstring)
| InvalidArgumentsSize (fn : rstring) (given : nat).

(** An [LLVMValueRef]: a constant, the [i]th parameter of a function, an
    instruction or a function, the last three by their handle. *)
Inductive LLVMValue : Type :=
| VConst (x : float)
| VArg (fn : nat) (i : nat)
| VInst (id : nat)
| VFunc (fn : nat).

Inductive Instr : Type :=
| IFAdd (l r : LLVMValue)
| IFSub (l r : LLVMValue)
| IFMul (l r : LLVMValue)
| IFCmpOLT (l r : LLVMValue)
| IUIToFP (v : LLVMValue)
| ICall (callee : nat) (call_args : list LLVMValue)
| IRet (v : LLVMValue).

Definition Block := list (nat * Instr).

(** A function of the module: its handle, its name ([[]] when unnamed), the
    names of its parameters and its basic blocks. *)
Record LFunction : Type := mkLFunction {
  fid : nat;
  fname : rstring;
  fparams : list rstring;
  fblocks : list Block
}.

(** [IRGenerator]: the module's functions (the context, module and builder
    together) and [named_values]. *)
Record IRGenerator : Type := mkIRGenerator {
  funcs : list LFunction;
  next_handle : nat;
  last_unique : nat;
  insert_point : option (nat * nat);
  named_values : list (rstring * LLVMValue)
}.

Definition IRGenerator_new : IRGenerator := mkIRGenerator [] 0 0 None [].

Definition set_funcs (g : IRGenerator) (fs : list LFunction) : IRGenerator :=
  mkIRGenerator fs (next_handle g) (last_unique g) (insert_point g) (named_values g).

Definition set_named_values (g : IRGenerator) (nv : list (rstring * LLVMValue))
  : IRGenerator :=
  mkIRGenerator (funcs g) (next_handle g) (last_unique g) (insert_point g) nv.

(** [HashMap<String, LLVMValue>] as an association list. *)
Fixpoint lookup (k : rstring) (m : list (rstring * LLVMValue)) : option LLVMValue :=
  match m with
  | [] => None
  | (k', v) :: m' => if rstring_eqb k k' then Some v else lookup k m'
  end.

Definition hm_insert (k : rstring) (v : LLVMValue) (m : list (rstring * LLVMValue))
  : list (rstring * LLVMValue) :=
  (k, v) :: filter (fun kv => negb (rstring_eqb k (fst kv))) m.

(** Decimal digits of a number, as [utostr]. *)
Fixpoint uint_chars (d : Decimal.uint) : rstring :=
  match d with
  | Decimal.Nil => []
  | Decimal.D0 d => 48%N :: uint_chars d
  | Decimal.D1 d => 49%N :: uint_chars d
  | Decimal.D2 d => 50%N :: uint_chars d
  | Decimal.D3 d => 51%N :: uint_chars d
  | Decimal.D4 d => 52%N :: uint_chars d
  | Decimal.D5 d => 53%N :: uint_chars d
  | Decimal.D6 d => 54%N :: uint_chars d
  | Decimal.D7 d => 55%N :: uint_chars d
  | Decimal.D8 d => 56%N :: uint_chars d
  | Decimal.D9 d => 57%N :: uint_chars d
  end.

Definition utostr (n : nat) : rstring := uint_chars (Nat.to_uint n).

Definition mem (n : rstring) (table : list rstring) : bool :=
  existsb (rstring_eqb n) table.

(** [ValueSymbolTable::makeUniqueName]: try [base ++ sep ++ ++LastUnique]
    until the name is free ([sep] is ["."] for globals, empty for locals).
    At most [length table] tries fail; past them the value stays unnamed. *)
Fixpoint make_unique_name (fuel : nat) (table : list rstring) (base sep : rstring)
    (lu : nat) : rstring * nat :=
  match fuel with
  | O => ([], lu)
  | S fuel =>
      let cand := base ++ sep ++ utostr (S lu) in
      if mem cand table then make_unique_name fuel table base sep (S lu)
      else (cand, S lu)
  end.

(** Setting a name in a symbol table: empty names leave the value unnamed,
    taken names are made unique. *)
Definition create_value_name (table : list rstring) (base sep : rstring) (lu : nat)
  : rstring * nat :=
  match base with
  | [] => ([], lu)
  | _ =>
      if mem base table
      then make_unique_name (S (List.length table)) table base sep lu
      else (base, lu)
  end.

(** The function a name denotes: unnamed functions are never found. *)
Definition named (n : rstring) (f : LFunction) : bool :=
  match n with
  | [] => false
  | _ => rstring_eqb (fname f) n
  end.

(** [LLVMModule::get_function] ([LLVMGetNamedFunction]). *)
Definition get_function (g : IRGenerator) (n : rstring) : Result LFunction LLVMError :=
  match find (named n) (funcs g) with
  | Some f => Ok f
  | None => Err (FunctionNotFound n)
  end.

(** [LLVMModule::add_function] ([LLVMAddFunction]) of a function with
    [nparams] parameters, all unnamed. *)
Definition add_function (g : IRGenerator) (n : rstring) (nparams : nat)
  : LFunction * IRGenerator :=
  let (nm, lu) := create_value_name (map fname (funcs g)) n (str ".") (last_unique g) in
  let f := mkLFunction (next_handle g) nm (repeat [] nparams) [] in
  (f, mkIRGenerator (funcs g ++ [f]) (S (next_handle g)) lu (insert_point g)
                    (named_values g)).

(** Naming the parameters of a fresh function with [LLVMSetValueName2], in
    order, in the function's own symbol table. *)
Fixpoint set_param_names (table : list rstring) (lu : nat) (names : list rstring)
  : list rstring :=
  match names with
  | [] => []
  | n :: names =>
      let (nm, lu) := create_value_name table n [] lu in
      nm :: set_param_names (match nm with [] => table | _ => table ++ [nm] end) lu names
  end.

(** [FunctionRef::args]: the parameters with their names. *)
Definition fn_args (f : LFunction) : list (rstring * LLVMValue) :=
  combine (fparams f) (map (VArg (fid f)) (seq 0 (List.length (fparams f)))).

Definition num_args (f : LFunction) : nat := List.length (fparams f).

Definition set_fparams (g : IRGenerator) (id : nat) (names : list rstring) : IRGenerator :=
  set_funcs g (map (fun h => if Nat.eqb (fid h) id
                             then mkLFunction (fid h) (fname h) names (fblocks h)
                             else h) (funcs g)).

(** [IRGenerator::gen_proto]; it always returns [Ok]. *)
Definition gen_proto (g : IRGenerator) (proto : Prototype) : LFunction * IRGenerator :=
  let (f, g) := add_function g (name proto) (List.length (args proto)) in
  let names := set_param_names [] 0 (args proto) in
  (mkLFunction (fid f) (fname f) names (fblocks f), set_fparams g (fid f) names).

Definition update_function (g : IRGenerator) (id : nat)
    (upd : list Block -> list Block) : IRGenerator :=
  set_funcs g (map (fun h => if Nat.eqb (fid h) id
                             then mkLFunction (fid h) (fname h) (fparams h) (upd (fblocks h))
                             else h) (funcs g)).

Definition find_function (g : IRGenerator) (id : nat) : option LFunction :=
  find (fun h => Nat.eqb (fid h) id) (funcs g).

(** [LLVMContext::create_basic_block]: append an "entry" block to the
    function; the result is the block's position. *)
Definition create_basic_block (g : IRGenerator) (f : LFunction) : (nat * nat) * IRGenerator :=
  let pos := match find_function g (fid f) with
             | Some h => List.length (fblocks h)
             | None => 0
             end in
  ((fid f, pos), update_function g (fid f) (fun bs => bs ++ [[]])).

Definition set_insert_point (g : IRGenerator) (bb : nat * nat) : IRGenerator :=
  mkIRGenerator (funcs g) (next_handle g) (last_unique g) (Some bb) (named_values g).

Fixpoint append_at (i : nat) (x : nat * Instr) (bs : list Block) : list Block :=
  match bs, i with
  | [], _ => []
  | b :: bs, O => (b ++ [x]) :: bs
  | b :: bs, S i => b :: append_at i x bs
  end.

(** The builder inserts a new instruction at the end of its block. *)
Definition emit (g : IRGenerator) (ins : Instr) : LLVMValue * IRGenerator :=
  let id := next_handle g in
  let g' := mkIRGenerator (funcs g) (S id) (last_unique g) (insert_point g)
                          (named_values g) in
  (VInst id, match insert_point g with
             | Some (fn, bi) => update_function g' fn (append_at bi (id, ins))
             | None => g'
             end).

(** The builder's constant folder folds operations on two constants. *)
Definition create_fadd (g : IRGenerator) (l r : LLVMValue) : LLVMValue * IRGenerator :=
  match l, r with
  | VConst x, VConst y => (VConst (x + y)%float, g)
  | _, _ => emit g (IFAdd l r)
  end.

Definition create_fsub (g : IRGenerator) (l r : LLVMValue) : LLVMValue * IRGenerator :=
  match l, r with
  | VConst x, VConst y => (VConst (x - y)%float, g)
  | _, _ => emit g (IFSub l r)
  end.

Definition create_fmul (g : IRGenerator) (l r : LLVMValue) : LLVMValue * IRGenerator :=
  match l, r with
  | VConst x, VConst y => (VConst (x * y)%float, g)
  | _, _ => emit g (IFMul l r)
  end.

Definition create_fcmp (g : IRGenerator) (l r : LLVMValue) : LLVMValue * IRGenerator :=
  match l, r with
  | VConst x, VConst y => (VConst (if (x <? y)%float then 1%float else 0%float), g)
  | _, _ => let (c, g) := emit g (IFCmpOLT l r) in emit g (IUIToFP c)
  end.

Definition create_call (g : IRGenerator) (callee : LFunction) (vals : list LLVMValue)
  : LLVMValue * IRGenerator :=
  emit g (ICall (fid callee) vals).

Definition create_ret (g : IRGenerator) (v : LLVMValue) : LLVMValue * IRGenerator :=
  emit g (IRet v).

(** [FunctionRef::delete] ([LLVMDeleteFunction]). *)
Definition delete (g : IRGenerator) (f : LFunction) : IRGenerator :=
  set_funcs g (filter (fun h => negb (Nat.eqb (fid h) (fid f))) (funcs g)).

(** Clear [named_values] and bind every parameter of [f] by its name. *)
Definition bind_args (f : LFunction) : list (rstring * LLVMValue) :=
  fold_left (fun m a => hm_insert (fst a) (snd a) m) (fn_args f) [].

(** The argument loop of the [Call] case: generate left to right, stop at
    the first error. *)
Fixpoint gen_args (gen_arg : IRGenerator -> ExprAST -> Result LLVMValue LLVMError * IRGenerator)
    (g : IRGenerator) (l : list ExprAST) : Result (list LLVMValue) LLVMError * IRGenerator :=
  match l with
  | [] => (Ok [], g)
  | a :: l =>
      match gen_arg g a with
      | (Err e, g) => (Err e, g)
      | (Ok v, g) =>
          match gen_args gen_arg g l with
          | (Err e, g) => (Err e, g)
          | (Ok vs, g) => (Ok (v :: vs), g)
          end
      end
  end.

(** Lines 283-286: reuse the function of that name, or declare it. *)
Definition def_function (g : IRGenerator) (proto : Prototype) : LFunction * IRGenerator :=
  match get_function g (name proto) with
  | Ok f => (f, g)
  | Err _ => gen_proto g proto
  end.

(** Lines 288-294: a fresh entry block, the builder there, the scope
    cleared and refilled from [f]'s parameters. *)
Definition enter_function (g : IRGenerator) (f : LFunction) : IRGenerator :=
  let (bb, g) := create_basic_block g f in
  let g := set_insert_point g bb in
  set_named_values g (bind_args f).

(** Lines 296-306: return the body's value and verify (a diagnostic that
    changes nothing), or delete the function and pass the error on. *)
Definition finish_function (f : LFunction)
    (res : Result LLVMValue LLVMError * IRGenerator)
  : Result LLVMValue LLVMError * IRGenerator :=
  match res with
  | (Ok v, g) => let (_, g) := create_ret g v in (Ok (VFunc (fid f)), g)
  | (Err e, g) => (Err e, delete g f)
  end.

(** [IRGenerator::gen]. *)
Fixpoint gen (g : IRGenerator) (ast : ExprAST) {struct ast}
  : Result LLVMValue LLVMError * IRGenerator :=
  match ast with
  | NumberExpr value => (Ok (VConst value), g)
  | VariableExpr nm =>
      match lookup nm (named_values g) with
      | Some value => (Ok value, g)
      | None => (Err (VariableNotFound nm), g)
      end
  | BinaryOp op lhs rhs =>
      match gen g lhs with
      | (Err e, g) => (Err e, g)
      | (Ok l, g) =>
          match gen g rhs with
          | (Err e, g) => (Err e, g)
          | (Ok r, g) =>
              let (v, g) := match op with
                            | LessThan => create_fcmp g l r
                            | Plus => create_fadd g l r
                            | Minus => create_fsub g l r
                            | Times => create_fmul g l r
                            end in
              (Ok v, g)
          end
      end
  | Call callee call_args =>
      match get_function g callee with
      | Err e => (Err e, g)
      | Ok f =>
          if negb (Nat.eqb (num_args f) (List.length call_args))
          then (Err (InvalidArgumentsSize callee (List.length call_args)), g)
          else
            match gen_args gen g call_args with
            | (Err e, g) => (Err e, g)
            | (Ok values, g) => let (v, g) := create_call g f values in (Ok v, g)
            end
      end
  | PrototypeExpr proto => let (f, g) := gen_proto g proto in (Ok (VFunc (fid f)), g)
  | FunctionExpr proto body =>
      let (f, g) := def_function g proto in
      finish_function f (gen (enter_function g f) body)
  end.

(** The states of a session: a new generator, then any sequence of [gen]. *)
Inductive Reachable : IRGenerator -> Prop :=
| reach_new : Reachable IRGenerator_new
| reach_gen (g : IRGenerator) (ast : ExprAST) :
    Reachable g -> Reachable (snd (gen g ast)).

(** Bodies as the parser builds them: no declaration inside. *)
Fixpoint is_expr (e : ExprAST) : bool :=
  match e with
  | NumberExpr _ | VariableExpr _ => true
  | BinaryOp _ l r => is_expr l && is_expr r
  | Call _ l => forallb is_expr l
  | PrototypeExpr _ | FunctionExpr _ _ => false
  end.

(** The handles of the functions named [n]. *)
Definition ids_named (g : IRGenerator) (n : rstring) : list nat :=
  map fid (filter (named n) (funcs g)).

(** The invariant of the module: a name denotes at most one function, and
    handles are distinct and below [next_handle]. *)
Definition wf (g : IRGenerator) : Prop :=
  (forall n, List.length (ids_named g n) <= 1) /\
  NoDup (map fid (funcs g)) /\
  Forall (fun h => fid h < next_handle g) (funcs g).

(** * Properties *)

(** ** Lexer *)

(** The characters the parser expects as single-character tokens. *)
Definition punctuation : rstring := str "(),;<+-*".

(** Whatever [next] yields, it never yields the [EOF] token. *)
Lemma next_never_eof (s : Lexer) : fst (next s) <> Some (Ok EOF).
Proof.
  unfold next. destruct (get_token s) as [r s']. simpl.
  destruct r as [t|e]; [destruct t|]; simpl; congruence.
Qed.

(** A character that starts no token is reported as it is. *)
Lemma get_token_unknown_initial (s : Lexer) (c : char) :
  last_char s = Some c ->
  is_ascii_whitespace c = false -> is_ascii_alphabetic c = false ->
  is_number_char c = false -> (c =? chr_hash)%N = false ->
  fst (get_token s) = Err (UnknownInitial c).
Proof.
  intros Hc Hw Ha Hn Hh. unfold get_token.
  destruct (lexer_size s); simpl; rewrite Hc, Hw; unfold get_char; rewrite Hc;
    simpl; rewrite Ha, Hn, Hh; reflexivity.
Qed.

(** C1 (code_bug). Every punctuation or operator character makes
    [get_token] fail with [UnknownInitial] of that character: lexer.rs has
    no case (and no [Token] variant) for them. *)
Theorem get_token_rejects_punctuation :
  Forall (fun c => fst (get_token (Lexer_new [c])) = Err (UnknownInitial c)) punctuation.
Proof.
  unfold punctuation. simpl.
  repeat constructor; apply get_token_unknown_initial; reflexivity.
Qed.

(** C8. Iterating the lexer over "3.141592 def fib x" yields the four
    tokens and then [None]; no [next] ever yields [EOF]. *)
Theorem lexer_iteration_fib :
  iterate 5 (Lexer_new (str "3.141592 def fib x")) =
    ([Ok (Number 3.141592); Ok Def; Ok (Identifier (str "fib"));
      Ok (Identifier (str "x"))], true)
  /\ forall s : Lexer, fst (next s) <> Some (Ok EOF).
Proof.
  split.
  - vm_compute. reflexivity.
  - exact next_never_eof.
Qed.

(** ** Parser *)

(** C3. The precedence table, and precedence climbing on "1+2*3;",
    "1*2+3;" and (left associativity) "1-2-3;". *)
Theorem parse_precedence_climbing :
  get_prec LessThan = 10 /\ get_prec Plus = 20 /\ get_prec Minus = 20 /\
  get_prec Times = 40 /\
  parse [Number 1; TOperator Plus; Number 2; TOperator Times; Number 3; SemiColon] =
    Ok (BinaryOp Plus (NumberExpr 1) (BinaryOp Times (NumberExpr 2) (NumberExpr 3)),
        None, []) /\
  parse [Number 1; TOperator Times; Number 2; TOperator Plus; Number 3; SemiColon] =
    Ok (BinaryOp Plus (BinaryOp Times (NumberExpr 1) (NumberExpr 2)) (NumberExpr 3),
        None, []) /\
  parse [Number 1; TOperator Minus; Number 2; TOperator Minus; Number 3; SemiColon] =
    Ok (BinaryOp Minus (BinaryOp Minus (NumberExpr 1) (NumberExpr 2)) (NumberExpr 3),
        None, []).
Proof. repeat split; vm_compute; reflexivity. Qed.

(** C7. A statement followed by something other than a semicolon, or by
    nothing, is still returned as a success, with a warning, and every token
    left is drained. *)
Theorem parse_missing_semicolon_warns (ts rest : list Token) (ast : ExprAST) :
  parse_statement ts = Ok (ast, rest) ->
  (match rest with SemiColon :: _ => False | _ => True end) ->
  parse ts = Ok (ast, Some (match rest with
                             | [] => ExpectedSemicolon
                             | _ => InvalidSyntax rest
                             end), []).
Proof.
  intros H Hrest. unfold parse. rewrite H.
  destruct rest as [|t rest']; [reflexivity|].
  destruct t; try reflexivity. contradiction.
Qed.

Lemma parse_missing_semicolon_warns_witness :
  parse_statement [Number 1; Number 2] = Ok (NumberExpr 1, [Number 2]) /\
  parse [Number 1; Number 2] = Ok (NumberExpr 1, Some (InvalidSyntax [Number 2]), []).
Proof.
  split; [vm_compute; reflexivity|].
  apply (parse_missing_semicolon_warns [Number 1; Number 2] [Number 2] (NumberExpr 1)).
  - vm_compute. reflexivity.
  - exact I.
Defined.

(** ** IR generator: the module's functions *)

Lemma rstring_eqb_true (a b : rstring) : rstring_eqb a b = true <-> a = b.
Proof. unfold rstring_eqb. destruct (list_eq_dec N.eq_dec a b); split; congruence. Qed.

Lemma rstring_eqb_refl (a : rstring) : rstring_eqb a a = true.
Proof. apply rstring_eqb_true. reflexivity. Qed.

(** Handles and names of the module's functions, in order. *)
Definition sig (g : IRGenerator) : list (nat * rstring) :=
  map (fun h => (fid h, fname h)) (funcs g).

Definition named_name (n nm : rstring) : bool :=
  match n with [] => false | _ => rstring_eqb nm n end.

Lemma ids_named_sig (g : IRGenerator) (n : rstring) :
  ids_named g n = map fst (filter (fun p => named_name n (snd p)) (sig g)).
Proof.
  unfold ids_named, sig. induction (funcs g) as [|h l IH]; [reflexivity|].
  simpl. unfold named at 1. destruct n as [|c n']; simpl; [exact IH|].
  destruct (rstring_eqb (fname h) (c :: n')); simpl; rewrite IH; reflexivity.
Qed.

Lemma fids_sig (g : IRGenerator) : map fid (funcs g) = map fst (sig g).
Proof. unfold sig. rewrite map_map. reflexivity. Qed.

(** One step of the backend that neither adds, removes nor renames a
    function, and does not reuse a handle. *)
Definition step (g g' : IRGenerator) : Prop :=
  sig g' = sig g /\ next_handle g <= next_handle g'.

Lemma step_refl (g : IRGenerator) : step g g.
Proof. split; [reflexivity | lia]. Qed.

Lemma step_trans (g1 g2 g3 : IRGenerator) : step g1 g2 -> step g2 g3 -> step g1 g3.
Proof. intros [H1 H2] [H3 H4]. split; [congruence | lia]. Qed.

Lemma step_map (g : IRGenerator) (phi : LFunction -> LFunction) :
  (forall h, fid (phi h) = fid h /\ fname (phi h) = fname h) ->
  step g (set_funcs g (map phi (funcs g))).
Proof.
  intros Hphi. split; [|simpl; lia].
  unfold sig; simpl. rewrite map_map. apply map_ext. intros h.
  destruct (Hphi h) as [-> ->]. reflexivity.
Qed.

Lemma step_update_function (g : IRGenerator) (id : nat) (u : list Block -> list Block) :
  step g (update_function g id u).
Proof. apply step_map. intros h. destruct (Nat.eqb (fid h) id); auto. Qed.

Lemma step_set_fparams (g : IRGenerator) (id : nat) (names : list rstring) :
  step g (set_fparams g id names).
Proof. apply step_map. intros h. destruct (Nat.eqb (fid h) id); auto. Qed.

Lemma step_emit (g : IRGenerator) (ins : Instr) : step g (snd (emit g ins)).
Proof.
  unfold emit. destruct (insert_point g) as [[fn bi]|]; simpl.
  - eapply step_trans; [|apply step_update_function]. split; [reflexivity | simpl; lia].
  - split; [reflexivity | simpl; lia].
Qed.

Lemma step_then_emit (g : IRGenerator) (ins : Instr)
    (k : LLVMValue -> IRGenerator -> LLVMValue * IRGenerator) :
  (forall c g1, step g1 (snd (k c g1))) ->
  step g (snd (let (c, g1) := emit g ins in k c g1)).
Proof.
  intros Hk. pose proof (step_emit g ins) as He.
  destruct (emit g ins) as [c g1]. eapply step_trans; [exact He | apply Hk].
Qed.

Lemma step_create_op (g : IRGenerator) (op : Operator) (l r : LLVMValue) :
  step g (snd (match op with
               | LessThan => create_fcmp g l r
               | Plus => create_fadd g l r
               | Minus => create_fsub g l r
               | Times => create_fmul g l r
               end)).
Proof.
  destruct op;
    [unfold create_fcmp | unfold create_fadd | unfold create_fsub | unfold create_fmul];
    destruct l, r;
    first [ apply step_refl | apply step_emit
          | apply step_then_emit; intros; apply step_emit ].
Qed.

Lemma step_create_call (g : IRGenerator) (f : LFunction) (vs : list LLVMValue) :
  step g (snd (create_call g f vs)).
Proof. apply step_emit. Qed.

Lemma step_create_ret (g : IRGenerator) (v : LLVMValue) :
  step g (snd (create_ret g v)).
Proof. apply step_emit. Qed.

Lemma step_enter_function (g : IRGenerator) (f : LFunction) :
  step g (enter_function g f).
Proof.
  unfold enter_function, create_basic_block.
  pose proof (step_update_function g (fid f) (fun bs => bs ++ [[]])) as [H1 H2].
  split; simpl; [exact H1 | exact H2].
Qed.

Lemma make_unique_name_fresh (fuel : nat) (table : list rstring) (base sep : rstring)
    (lu : nat) :
  fst (make_unique_name fuel table base sep lu) = [] \/
  mem (fst (make_unique_name fuel table base sep lu)) table = false.
Proof.
  revert lu. induction fuel as [|fuel IH]; intros lu; simpl; [left; reflexivity|].
  destruct (mem (base ++ sep ++ utostr (S lu)) table) eqn:E; [apply IH | right; exact E].
Qed.

Lemma create_value_name_fresh (table : list rstring) (base sep : rstring) (lu : nat) :
  fst (create_value_name table base sep lu) = [] \/
  mem (fst (create_value_name table base sep lu)) table = false.
Proof.
  unfold create_value_name. destruct base as [|c base']; [left; reflexivity|].
  destruct (mem (c :: base') table) eqn:E; [apply make_unique_name_fresh | right; exact E].
Qed.

Lemma mem_false_filter (m : rstring) (l : list LFunction) :
  mem m (map fname l) = false -> filter (named m) l = [].
Proof.
  induction l as [|h l IH]; simpl; [reflexivity|].
  intros H. apply orb_false_iff in H as [H1 H2].
  rewrite (IH H2). unfold named. destruct m as [|c m']; [reflexivity|].
  destruct (rstring_eqb (fname h) (c :: m')) eqn:E; [|reflexivity].
  apply rstring_eqb_true in E. rewrite E, rstring_eqb_refl in H1. discriminate.
Qed.

Lemma filter_named_mem (m : rstring) (l : list LFunction) :
  m <> [] -> filter (named m) l = [] -> mem m (map fname l) = false.
Proof.
  intros Hm. induction l as [|h l IH]; simpl; [reflexivity|].
  unfold named at 1. destruct m as [|c m']; [congruence|].
  destruct (rstring_eqb (fname h) (c :: m')) eqn:E; [discriminate|].
  intros H. rewrite (IH H), orb_false_r.
  destruct (rstring_eqb (c :: m') (fname h)) eqn:E'; [|reflexivity].
  apply rstring_eqb_true in E'. rewrite <- E', rstring_eqb_refl in E. discriminate.
Qed.

Lemma named_nonempty (m : rstring) (f : LFunction) :
  named m f = true -> m <> [] /\ fname f = m.
Proof.
  unfold named. destruct m as [|c m']; [discriminate|].
  intros H. apply rstring_eqb_true in H. split; [discriminate | exact H].
Qed.

Lemma ids_named_nil (g : IRGenerator) (m : rstring) :
  ids_named g m = [] <-> filter (named m) (funcs g) = [].
Proof.
  unfold ids_named. destruct (filter (named m) (funcs g)); simpl; split; congruence.
Qed.

Lemma get_function_none (g : IRGenerator) (m : rstring) :
  ids_named g m = [] -> get_function g m = Err (FunctionNotFound m).
Proof.
  intros H. apply ids_named_nil in H. unfold get_function.
  destruct (find (named m) (funcs g)) as [f|] eqn:E; [|reflexivity].
  apply find_some in E as [Hin Hf].
  assert (In f (filter (named m) (funcs g))) as Hin' by (apply filter_In; auto).
  rewrite H in Hin'. destruct Hin'.
Qed.

Lemma gen_proto_spec (g : IRGenerator) (proto : Prototype) :
  let (f, g') := gen_proto g proto in
  map fid (funcs g') = map fid (funcs g) ++ [next_handle g] /\
  fid f = next_handle g /\
  next_handle g' = S (next_handle g) /\
  (forall m, ids_named g' m = ids_named g m ++ (if named m f then [fid f] else [])) /\
  (forall m, named m f = true -> ids_named g m = []) /\
  (name proto <> [] -> ids_named g (name proto) = [] -> fname f = name proto) /\
  fparams f = set_param_names [] 0 (args proto).
Proof.
  unfold gen_proto, add_function.
  destruct (create_value_name (map fname (funcs g)) (name proto) (str ".") (last_unique g))
    as [nm lu] eqn:Ecv.
  pose proof (create_value_name_fresh (map fname (funcs g)) (name proto) (str ".")
                (last_unique g)) as Hfresh.
  rewrite Ecv in Hfresh. simpl in Hfresh.
  set (names := set_param_names [] 0 (args proto)).
  set (f0 := mkLFunction (next_handle g) nm (repeat [] (List.length (args proto))) []).
  pose proof (step_set_fparams
                (mkIRGenerator (funcs g ++ [f0]) (S (next_handle g)) lu (insert_point g)
                   (named_values g)) (fid f0) names) as [Hsig Hnext].
  assert (Hfids : forall g1 g2, sig g1 = sig g2 -> map fid (funcs g1) = map fid (funcs g2))
    by (intros g1 g2 E; rewrite !fids_sig, E; reflexivity).
  assert (Hids : forall g1 g2 m, sig g1 = sig g2 -> ids_named g1 m = ids_named g2 m)
    by (intros g1 g2 m E; rewrite !ids_named_sig, E; reflexivity).
  assert (Hfresh' : forall m, named m f0 = true -> ids_named g m = []).
  { intros m Hm. apply named_nonempty in Hm as [Hne Hnm]. simpl in Hnm. subst nm.
    destruct Hfresh as [Hnil | Hmem]; [contradiction|].
    apply ids_named_nil, mem_false_filter, Hmem. }
  split; [|split; [reflexivity|split; [reflexivity|split; [|split; [|split; [|reflexivity]]]]]].
  - rewrite (Hfids _ _ Hsig). simpl. rewrite map_app. reflexivity.
  - intros m. rewrite (Hids _ _ _ Hsig). unfold ids_named at 1. cbn [funcs].
    rewrite filter_app, map_app. f_equal. simpl. unfold named.
    destruct m as [|c m']; [reflexivity|]. simpl.
    destruct (rstring_eqb nm (c :: m')); reflexivity.
  - exact Hfresh'.
  - intros Hne Hnone. apply ids_named_nil in Hnone.
    apply (filter_named_mem _ _ Hne) in Hnone. simpl.
    unfold create_value_name in Ecv. destruct (name proto) as [|c n']; [congruence|].
    rewrite Hnone in Ecv. congruence.
Qed.

Lemma delete_ids (g : IRGenerator) (f : LFunction) (m : rstring) :
  ids_named (delete g f) m = filter (fun i => negb (Nat.eqb i (fid f))) (ids_named g m).
Proof.
  unfold ids_named, delete. simpl. induction (funcs g) as [|h l IH]; [reflexivity|].
  simpl. destruct (Nat.eqb (fid h) (fid f)) eqn:E1; destruct (named m h) eqn:E2;
    simpl; rewrite ?E1, ?E2; simpl; rewrite ?E1; simpl; exact IH || (f_equal; exact IH).
Qed.

Lemma delete_fids (g : IRGenerator) (f : LFunction) :
  map fid (funcs (delete g f)) = filter (fun i => negb (Nat.eqb i (fid f))) (map fid (funcs g)).
Proof. unfold delete. simpl. rewrite filter_map_swap. reflexivity. Qed.

Lemma ids_step (g g' : IRGenerator) (m : rstring) :
  step g g' -> ids_named g' m = ids_named g m.
Proof. intros [Hs _]. rewrite !ids_named_sig, Hs. reflexivity. Qed.

(** A state property [Q] kept by a generation, unless it fails in a state
    satisfying [E]. *)
Definition kept {A : Type} (Q E : IRGenerator -> Prop)
    (res : Result A LLVMError * IRGenerator) : Prop :=
  Q (snd res) \/ (E (snd res) /\ exists e, fst res = Err e).

Lemma gen_args_kept (Q E : IRGenerator -> Prop)
    (gen_arg : IRGenerator -> ExprAST -> Result LLVMValue LLVMError * IRGenerator)
    (l : list ExprAST) :
  Forall (fun a => forall g, Q g -> kept Q E (gen_arg g a)) l ->
  forall g, Q g -> kept Q E (gen_args gen_arg g l).
Proof.
  induction 1 as [|a l Ha Hl IH]; intros g Hg; simpl; [left; exact Hg|].
  specialize (Ha g Hg). destruct (gen_arg g a) as [[v|e] g1]; simpl in Ha.
  - destruct Ha as [Hq | [_ [e He]]]; [|discriminate].
    specialize (IH g1 Hq). destruct (gen_args gen_arg g1 l) as [[vs|e] g2]; simpl in IH.
    + destruct IH as [Hq2 | [_ [e He]]]; [left; exact Hq2 | discriminate].
    + exact IH.
  - destruct Ha as [Hq | [He _]]; [left; exact Hq | right; split; [exact He | exists e; reflexivity]].
Qed.

Section ExprASTInduction.
Variable P : ExprAST -> Prop.
Hypothesis HNumber : forall v, P (NumberExpr v).
Hypothesis HVariable : forall nm, P (VariableExpr nm).
Hypothesis HBinaryOp : forall op l r, P l -> P r -> P (BinaryOp op l r).
Hypothesis HCall : forall c l, Forall P l -> P (Call c l).
Hypothesis HPrototype : forall p, P (PrototypeExpr p).
Hypothesis HFunction : forall p b, P b -> P (FunctionExpr p b).

Fixpoint ExprAST_ind' (e : ExprAST) : P e :=
  match e with
  | NumberExpr v => HNumber v
  | VariableExpr nm => HVariable nm
  | BinaryOp op l r => HBinaryOp op l r (ExprAST_ind' l) (ExprAST_ind' r)
  | Call c l =>
      HCall c l ((fix go (l : list ExprAST) : Forall P l :=
                    match l with
                    | [] => Forall_nil P
                    | a :: l' => Forall_cons a (ExprAST_ind' a) (go l')
                    end) l)
  | PrototypeExpr p => HPrototype p
  | FunctionExpr p b => HFunction p b (ExprAST_ind' b)
  end.
End ExprASTInduction.

(** Generation with a property of states that every backend step keeps,
    that declaring keeps, and that deleting keeps unless the result is an
    error in a state satisfying [E]. *)
Section GenKept.
Variables Q E : IRGenerator -> Prop.
Hypothesis Q_step : forall g g', Q g -> step g g' -> Q g'.
Hypothesis Q_gen_proto : forall g p, Q g -> Q (snd (gen_proto g p)).
Hypothesis Q_delete : forall g f, Q g -> Q (delete g f) \/ E (delete g f).
Hypothesis E_delete : forall g f, E g -> E (delete g f).

Lemma finish_function_kept (f : LFunction) (res : Result LLVMValue LLVMError * IRGenerator) :
  kept Q E res -> kept Q E (finish_function f res).
Proof.
  destruct res as [[v|e] g5]; cbn [finish_function]; unfold kept; cbn [fst snd];
    intros [Hq | [He [e' Herr]]].
  - left. pose proof (step_create_ret g5 v) as Hs.
    destruct (create_ret g5 v) as [rv g6]. exact (Q_step _ _ Hq Hs).
  - discriminate.
  - destruct (Q_delete g5 f Hq) as [Hq' | He'];
      [left; exact Hq' | right; split; [exact He' | exists e; reflexivity]].
  - right. split; [apply E_delete; exact He | exists e; reflexivity].
Qed.

Lemma gen_kept (e : ExprAST) : forall g, Q g -> kept Q E (gen g e).
Proof.
  induction e as [v|nm|op l r IHl IHr|c l IHl|p|p b IHb] using ExprAST_ind';
    intros g Hg; cbn [gen].
  - left. exact Hg.
  - destruct (lookup nm (named_values g)); left; exact Hg.
  - specialize (IHl g Hg). destruct (gen g l) as [[v1|e1] g1]; [|exact IHl].
    destruct IHl as [Hq1 | [_ [e' He']]]; [|discriminate].
    specialize (IHr g1 Hq1). destruct (gen g1 r) as [[v2|e2] g2]; [|exact IHr].
    destruct IHr as [Hq2 | [_ [e' He']]]; [|discriminate].
    pose proof (step_create_op g2 op v1 v2) as Hs.
    destruct (match op with
              | LessThan => create_fcmp g2 v1 v2
              | Plus => create_fadd g2 v1 v2
              | Minus => create_fsub g2 v1 v2
              | Times => create_fmul g2 v1 v2
              end) as [v3 g3].
    left. exact (Q_step _ _ Hq2 Hs).
  - destruct (get_function g c) as [f|err]; [|left; exact Hg].
    destruct (negb (Nat.eqb (num_args f) (List.length l))); [left; exact Hg|].
    pose proof (gen_args_kept Q E gen l IHl g Hg) as Hk.
    destruct (gen_args gen g l) as [[vs|err] g1];
      [|destruct Hk as [Hq | [He _]];
        [left; exact Hq | right; split; [exact He | exists err; reflexivity]]].
    destruct Hk as [Hq1 | [_ [e' He']]]; [|discriminate].
    pose proof (step_create_call g1 f vs) as Hs.
    destruct (create_call g1 f vs) as [v g2]. left. exact (Q_step _ _ Hq1 Hs).
  - pose proof (Q_gen_proto g p Hg) as Hq.
    destruct (gen_proto g p) as [f g1]. left. exact Hq.
  - unfold def_function.
    assert (Hq1 : Q (snd (match get_function g (name p) with
                              | Ok f => (f, g)
                              | Err _ => gen_proto g p
                              end))).
    { destruct (get_function g (name p)); [exact Hg | apply Q_gen_proto; exact Hg]. }
    destruct (match get_function g (name p) with
              | Ok f => (f, g)
              | Err _ => gen_proto g p
              end) as [f g1].
    apply finish_function_kept, IHb.
    exact (Q_step _ _ Hq1 (step_enter_function g1 f)).
Qed.
End GenKept.

(** The function named [n] stays the one with handle [i], unless the
    generation fails and has deleted it. *)
Lemma gen_keeps_name (n : rstring) (i : nat) (e : ExprAST) (g : IRGenerator) :
  ids_named g n = [i] ->
  kept (fun g => ids_named g n = [i]) (fun g => ids_named g n = []) (gen g e).
Proof.
  revert g. apply (gen_kept (fun g => ids_named g n = [i]) (fun g => ids_named g n = [])).
  - intros g1 g2 H Hs. rewrite (ids_step _ _ _ Hs). exact H.
  - intros g1 p H. pose proof (gen_proto_spec g1 p) as Hp.
    destruct (gen_proto g1 p) as [f g2]. destruct Hp as (_ & _ & _ & Hids & Hfresh & _).
    simpl. rewrite Hids, H. destruct (named n f) eqn:En; [|apply app_nil_r].
    rewrite (Hfresh n En) in H. discriminate.
  - intros g1 f H. rewrite !delete_ids, H. simpl.
    destruct (Nat.eqb i (fid f)); [right | left]; reflexivity.
  - intros g1 f H. rewrite delete_ids, H. reflexivity.
Qed.

Lemma fids_below (g : IRGenerator) (b : nat) :
  Forall (fun h => fid h < b) (funcs g) <-> Forall (fun i => i < b) (map fid (funcs g)).
Proof. symmetry. apply Forall_map. Qed.

Lemma wf_step (g g' : IRGenerator) : wf g -> step g g' -> wf g'.
Proof.
  intros (Hn & Hd & Hb) Hs. pose proof Hs as [Hsig Hnext]. split; [|split].
  - intros m. rewrite (ids_step _ _ _ Hs). apply Hn.
  - rewrite fids_sig, Hsig, <- fids_sig. exact Hd.
  - apply fids_below. rewrite fids_sig, Hsig, <- fids_sig. apply fids_below in Hb.
    eapply Forall_impl; [|exact Hb]. intros a Ha. simpl in Ha. lia.
Qed.

Lemma wf_gen_proto (g : IRGenerator) (p : Prototype) : wf g -> wf (snd (gen_proto g p)).
Proof.
  intros (Hn & Hd & Hb). pose proof (gen_proto_spec g p) as Hp.
  destruct (gen_proto g p) as [f g'].
  destruct Hp as (Hfids & Hfid & Hnext & Hids & Hfresh & _). simpl.
  split; [|split].
  - intros m. rewrite Hids. destruct (named m f) eqn:Em.
    + rewrite (Hfresh m Em). simpl. lia.
    + rewrite app_nil_r. apply Hn.
  - rewrite Hfids. apply NoDup_app; [exact Hd | constructor; [intros [] | constructor] |].
    intros a Ha [Hx | []]. subst a. apply fids_below in Hb. rewrite Forall_forall in Hb.
    specialize (Hb _ Ha). lia.
  - apply fids_below. apply fids_below in Hb.
    rewrite Hfids, Hnext. apply Forall_app. split.
    + eapply Forall_impl; [|exact Hb]. intros a Ha. simpl in Ha. lia.
    + constructor; [lia | constructor].
Qed.

Lemma wf_delete (g : IRGenerator) (f : LFunction) : wf g -> wf (delete g f).
Proof.
  intros (Hn & Hd & Hb). split; [|split].
  - intros m. rewrite delete_ids. eapply Nat.le_trans; [apply filter_length_le | apply Hn].
  - rewrite delete_fids. apply NoDup_filter. exact Hd.
  - unfold delete. simpl. apply Forall_forall. intros a Ha.
    apply filter_In in Ha as [Ha _]. rewrite Forall_forall in Hb. apply Hb, Ha.
Qed.

Lemma gen_wf (g : IRGenerator) (e : ExprAST) : wf g -> wf (snd (gen g e)).
Proof.
  intros Hg. destruct (gen_kept wf (fun _ => False) wf_step wf_gen_proto
                         (fun g f H => or_introl (wf_delete g f H))
                         (fun g f H => H) e g Hg) as [H | [[] _]].
  exact H.
Qed.

Lemma reachable_wf (g : IRGenerator) : Reachable g -> wf g.
Proof.
  induction 1 as [|g e _ IH].
  - split; [|split]; [intros m; simpl; lia | constructor | constructor].
  - apply gen_wf, IH.
Qed.

(** In a well-formed module, the function a name finds is the only one. *)
Lemma get_function_ids (g : IRGenerator) (n : rstring) (f : LFunction) :
  wf g -> get_function g n = Ok f -> ids_named g n = [fid f].
Proof.
  intros (Hn & _) Hget. unfold get_function in Hget.
  destruct (find (named n) (funcs g)) as [f'|] eqn:E; [|discriminate].
  injection Hget as <-. apply find_some in E as [Hin Hf].
  assert (In (fid f') (ids_named g n)) as Hi.
  { apply in_map, filter_In. auto. }
  specialize (Hn n). destruct (ids_named g n) as [|a [|b l]]; simpl in *.
  - destruct Hi.
  - destruct Hi as [-> | []]. reflexivity.
  - lia.
Qed.

(** The function [def_function] picks is then the only one of that name. *)
Lemma def_function_ids (g : IRGenerator) (proto : Prototype) :
  wf g -> name proto <> [] ->
  ids_named (snd (def_function g proto)) (name proto) = [fid (fst (def_function g proto))].
Proof.
  intros Hwf Hne. unfold def_function.
  destruct (get_function g (name proto)) as [f|err] eqn:Eg.
  - apply get_function_ids; assumption.
  - pose proof (gen_proto_spec g proto) as Hp. destruct (gen_proto g proto) as [f g'].
    destruct Hp as (_ & _ & _ & Hids & Hfresh & Hname & _). simpl.
    assert (Hnone : ids_named g (name proto) = []).
    { destruct (ids_named g (name proto)) eqn:Ei; [reflexivity|].
      unfold get_function in Eg.
      destruct (find (named (name proto)) (funcs g)) eqn:Ef; [discriminate|].
      exfalso. unfold ids_named in Ei.
      destruct (filter (named (name proto)) (funcs g)) as [|h rest] eqn:Efl; [discriminate|].
      assert (In h (filter (named (name proto)) (funcs g))) as Hh by (rewrite Efl; left; reflexivity).
      apply filter_In in Hh as [Hin Hnm].
      pose proof (find_none _ _ Ef h Hin). congruence. }
    rewrite Hids, Hnone. simpl.
    unfold named. rewrite (Hname Hne Hnone).
    destruct (name proto) as [|c n']; [congruence|]. rewrite rstring_eqb_refl. reflexivity.
Qed.

Lemma ids_named_empty_name (g : IRGenerator) : ids_named g [] = [].
Proof.
  unfold ids_named. induction (funcs g) as [|h l IH]; [reflexivity|]. exact IH.
Qed.

(** After the body of a definition, the name of the definition still
    denotes its function, or nothing if the body failed. *)
Lemma gen_body_ids (g : IRGenerator) (proto : Prototype) (body : ExprAST) :
  wf g ->
  let (f, g1) := def_function g proto in
  ids_named (snd (gen (enter_function g1 f) body)) (name proto) = [fid f] \/
  ids_named (snd (gen (enter_function g1 f) body)) (name proto) = [].
Proof.
  intros Hwf. destruct (name proto) as [|c n'] eqn:En.
  - destruct (def_function g proto). right. apply ids_named_empty_name.
  - pose proof (def_function_ids g proto Hwf ltac:(rewrite En; discriminate)) as Hids.
    rewrite En in Hids. destruct (def_function g proto) as [f g1]. simpl in Hids.
    rewrite <- (ids_step _ _ (c :: n') (step_enter_function g1 f)) in Hids.
    destruct (gen_keeps_name (c :: n') (fid f) body _ Hids) as [H | [H _]]; auto.
Qed.

(** ** IR generator: definitions and calls *)

(** C2. When the body of a definition fails, the function the definition
    created or reused is deleted before the error is returned: no function
    of that name is left, and a later call of that name fails with
    [FunctionNotFound]. *)
Theorem gen_function_failure_deletes (g g' : IRGenerator) (proto : Prototype)
    (body : ExprAST) (err : LLVMError) :
  Reachable g ->
  gen g (FunctionExpr proto body) = (Err err, g') ->
  find_function g' (fid (fst (def_function g proto))) = None /\
  get_function g' (name proto) = Err (FunctionNotFound (name proto)) /\
  forall call_args : list ExprAST,
    gen g' (Call (name proto) call_args) = (Err (FunctionNotFound (name proto)), g').
Proof.
  intros Hr H. pose proof (gen_body_ids g proto body (reachable_wf g Hr)) as Hb.
  cbn [gen] in H. destruct (def_function g proto) as [f g1]. simpl.
  destruct (gen (enter_function g1 f) body) as [[v|e] g5]; simpl in H, Hb.
  - destruct (create_ret g5 v). discriminate.
  - injection H as _ <-.
    assert (Hg : get_function (delete g5 f) (name proto) = Err (FunctionNotFound (name proto))).
    { apply get_function_none. rewrite delete_ids.
      destruct Hb as [-> | ->]; simpl; [rewrite Nat.eqb_refl|]; reflexivity. }
    split; [|split; [exact Hg | intros call_args; cbn [gen]; rewrite Hg; reflexivity]].
    unfold find_function, delete. simpl.
    destruct (find _ _) as [h|] eqn:Ef; [|reflexivity].
    apply find_some in Ef as [Hin Hh]. apply filter_In in Hin as [_ Hn].
    rewrite Hh in Hn. discriminate.
Qed.

Lemma gen_function_failure_deletes_witness :
  let g := IRGenerator_new in
  let proto := mkPrototype (str "f") [str "x"] in
  let body := VariableExpr (str "y") in
  Reachable g /\
  gen g (FunctionExpr proto body) = (Err (VariableNotFound (str "y")), snd (gen g (FunctionExpr proto body))) /\
  get_function (snd (gen g (FunctionExpr proto body))) (str "f") = Err (FunctionNotFound (str "f")).
Proof.
  intros g proto body. split; [exact reach_new|]. split; [vm_compute; reflexivity|].
  refine (proj1 (proj2 (gen_function_failure_deletes g _ proto body (VariableNotFound (str "y"))
                         reach_new _))).
  vm_compute. reflexivity.
Defined.

(** ** Expression bodies only emit instructions *)

(** A run of the builder: a sequence of emitted instructions. *)
Inductive emits : IRGenerator -> IRGenerator -> Prop :=
| emits_refl (g : IRGenerator) : emits g g
| emits_cons (g : IRGenerator) (ins : Instr) (g' : IRGenerator) :
    emits (snd (emit g ins)) g' -> emits g g'.

Lemma emits_trans (g1 g2 g3 : IRGenerator) : emits g1 g2 -> emits g2 g3 -> emits g1 g3.
Proof.
  induction 1 as [g|g ins g' _ IH]; intros H; [exact H|].
  apply emits_cons with ins. apply IH, H.
Qed.

Lemma emits_one (g : IRGenerator) (ins : Instr) : emits g (snd (emit g ins)).
Proof. apply emits_cons with ins. apply emits_refl. Qed.

(** Any property of states that emitting keeps is kept by a run. *)
Lemma emits_keep (P : IRGenerator -> Prop)
    (HP : forall g ins, P g -> P (snd (emit g ins))) (g g' : IRGenerator) :
  emits g g' -> P g -> P g'.
Proof. induction 1 as [g|g ins g' _ IH]; intros Hg; [exact Hg | apply IH, HP, Hg]. Qed.

Lemma emits_create_fcmp (g : IRGenerator) (l r : LLVMValue) :
  emits g (snd (create_fcmp g l r)).
Proof.
  assert (Hc : emits g (snd (let (c, g) := emit g (IFCmpOLT l r) in emit g (IUIToFP c)))).
  { destruct (emit g (IFCmpOLT l r)) as [c g1] eqn:E.
    apply emits_cons with (IFCmpOLT l r). rewrite E. apply emits_one. }
  unfold create_fcmp. destruct l, r; try exact Hc. apply emits_refl.
Qed.

Lemma emits_create_op (g : IRGenerator) (op : Operator) (l r : LLVMValue) :
  emits g (snd (match op with
                | LessThan => create_fcmp g l r
                | Plus => create_fadd g l r
                | Minus => create_fsub g l r
                | Times => create_fmul g l r
                end)).
Proof.
  destruct op; [apply emits_create_fcmp | unfold create_fadd | unfold create_fsub
                | unfold create_fmul];
    destruct l, r; try apply emits_refl; apply emits_one.
Qed.

Lemma emits_gen_args
    (gen_arg : IRGenerator -> ExprAST -> Result LLVMValue LLVMError * IRGenerator)
    (l : list ExprAST) :
  Forall (fun a => forall g, emits g (snd (gen_arg g a))) l ->
  forall g, emits g (snd (gen_args gen_arg g l)).
Proof.
  induction 1 as [|a l Ha Hl IH]; intros g; simpl; [apply emits_refl|].
  specialize (Ha g). destruct (gen_arg g a) as [[v|e] g1]; simpl in Ha; [|exact Ha].
  specialize (IH g1). destruct (gen_args gen_arg g1 l) as [[vs|e] g2]; simpl in IH;
    exact (emits_trans _ _ _ Ha IH).
Qed.

Lemma gen_expr_emits (e : ExprAST) :
  is_expr e = true -> forall g, emits g (snd (gen g e)).
Proof.
  induction e as [v|nm|op l r IHl IHr|c l IHl|p|p b IHb] using ExprAST_ind';
    intros He g; cbn [gen is_expr] in *; try discriminate.
  - apply emits_refl.
  - destruct (lookup nm (named_values g)); apply emits_refl.
  - apply andb_prop in He as [Hl Hr].
    specialize (IHl Hl g). destruct (gen g l) as [[v1|e1] g1]; [|exact IHl].
    specialize (IHr Hr g1). destruct (gen g1 r) as [[v2|e2] g2];
      [|exact (emits_trans _ _ _ IHl IHr)].
    pose proof (emits_create_op g2 op v1 v2) as Hs.
    destruct (match op with
              | LessThan => create_fcmp g2 v1 v2
              | Plus => create_fadd g2 v1 v2
              | Minus => create_fsub g2 v1 v2
              | Times => create_fmul g2 v1 v2
              end) as [v3 g3].
    exact (emits_trans _ _ _ IHl (emits_trans _ _ _ IHr Hs)).
  - destruct (get_function g c) as [f|err]; [|apply emits_refl].
    destruct (negb (Nat.eqb (num_args f) (List.length l))); [apply emits_refl|].
    assert (Hl : Forall (fun a => forall g, emits g (snd (gen g a))) l).
    { rewrite forallb_forall in He. rewrite Forall_forall in IHl |- *.
      intros a Ha. apply IHl; [exact Ha | apply He, Ha]. }
    pose proof (emits_gen_args gen l Hl g) as Hk.
    destruct (gen_args gen g l) as [[vs|err] g1]; [|exact Hk].
    unfold create_call. simpl. exact (emits_trans _ _ _ Hk (emits_one g1 _)).
Qed.

Lemma emit_named_values (g : IRGenerator) (ins : Instr) :
  named_values (snd (emit g ins)) = named_values g.
Proof. unfold emit. destruct (insert_point g) as [[fn bi]|]; reflexivity. Qed.

Lemma emit_insert_point (g : IRGenerator) (ins : Instr) :
  insert_point (snd (emit g ins)) = insert_point g.
Proof. unfold emit. destruct (insert_point g) as [[fn bi]|]; reflexivity. Qed.

Lemma emits_step (g g' : IRGenerator) : emits g g' -> step g g'.
Proof.
  induction 1 as [g|g ins g' _ IH]; [apply step_refl|].
  exact (step_trans _ _ _ (step_emit g ins) IH).
Qed.

Lemma get_function_err_ids (g : IRGenerator) (n : rstring) (e : LLVMError) :
  get_function g n = Err e -> ids_named g n = [].
Proof.
  intros Eg. unfold get_function in Eg.
  destruct (find (named n) (funcs g)) eqn:Ef; [discriminate|].
  apply ids_named_nil. destruct (filter (named n) (funcs g)) as [|h rest] eqn:Efl; [reflexivity|].
  assert (In h (filter (named n) (funcs g))) as Hh by (rewrite Efl; left; reflexivity).
  apply filter_In in Hh as [Hin Hnm]. pose proof (find_none _ _ Ef h Hin). congruence.
Qed.

Lemma named_self (n : rstring) (f : LFunction) : n <> [] -> fname f = n -> named n f = true.
Proof.
  intros Hne <-. unfold named. destruct (fname f); [congruence | apply rstring_eqb_refl].
Qed.

(** A successful definition with an expression body changes no function
    of the module but the one it defines. *)
Lemma finish_function_ok_step (g1 : IRGenerator) (f : LFunction) (body : ExprAST)
    (v : LLVMValue) (g' : IRGenerator) :
  is_expr body = true ->
  finish_function f (gen (enter_function g1 f) body) = (Ok v, g') ->
  v = VFunc (fid f) /\ step g1 g'.
Proof.
  intros Hb H. pose proof (gen_expr_emits body Hb (enter_function g1 f)) as Hem.
  destruct (gen (enter_function g1 f) body) as [[v0|e0] g5]; cbn [finish_function snd] in H, Hem;
    [|discriminate].
  pose proof (step_create_ret g5 v0) as Hr.
  destruct (create_ret g5 v0) as [rv g6]. injection H as <- <-. split; [reflexivity|].
  exact (step_trans _ _ _ (step_enter_function g1 f) (step_trans _ _ _ (emits_step _ _ Hem) Hr)).
Qed.

(** C4. A definition whose name already has a function reuses it: the
    body goes into that function, and a success adds no function and leaves
    the name on that function. Only when no function has the name is one
    declared, with the next handle. *)
Theorem gen_function_reuses (g : IRGenerator) (proto : Prototype) (body : ExprAST) :
  Reachable g -> is_expr body = true ->
  match get_function g (name proto) with
  | Ok f =>
      gen g (FunctionExpr proto body) = finish_function f (gen (enter_function g f) body) /\
      forall v g', gen g (FunctionExpr proto body) = (Ok v, g') ->
        v = VFunc (fid f) /\ map fid (funcs g') = map fid (funcs g) /\
        ids_named g' (name proto) = [fid f]
  | Err _ =>
      forall v g', gen g (FunctionExpr proto body) = (Ok v, g') ->
        v = VFunc (next_handle g) /\
        map fid (funcs g') = map fid (funcs g) ++ [next_handle g] /\
        (name proto <> [] -> ids_named g' (name proto) = [next_handle g])
  end.
Proof.
  intros Hr Hb. pose proof (reachable_wf g Hr) as Hwf.
  cbn [gen]. unfold def_function.
  destruct (get_function g (name proto)) as [f|err] eqn:Eg.
  - split; [reflexivity|]. intros v g' H.
    destruct (finish_function_ok_step g f body v g' Hb H) as [-> Hs].
    split; [reflexivity | split].
    + rewrite !fids_sig, (proj1 Hs). reflexivity.
    + rewrite (ids_step _ _ _ Hs). apply get_function_ids; assumption.
  - pose proof (gen_proto_spec g proto) as Hp. pose proof (get_function_err_ids _ _ _ Eg) as Hnone.
    destruct (gen_proto g proto) as [f g1].
    destruct Hp as (Hfids & Hfid & _ & Hids & _ & Hname & _).
    intros v g' H. destruct (finish_function_ok_step g1 f body v g' Hb H) as [-> Hs].
    rewrite Hfid. split; [reflexivity | split].
    + rewrite fids_sig, (proj1 Hs), <- fids_sig. exact Hfids.
    + intros Hne. rewrite (ids_step _ _ _ Hs), Hids, Hnone.
      rewrite (named_self _ _ Hne (Hname Hne Hnone)), Hfid. reflexivity.
Qed.

Lemma gen_function_reuses_witness :
  let g := snd (gen IRGenerator_new (PrototypeExpr (mkPrototype (str "f") [str "x"]))) in
  let proto := mkPrototype (str "f") [str "x"] in
  let body := BinaryOp Plus (VariableExpr (str "x")) (NumberExpr 1) in
  Reachable g /\ is_expr body = true /\
  get_function g (str "f") = Ok (mkLFunction 0 (str "f") [str "x"] []) /\
  gen g (FunctionExpr proto body) =
    finish_function (mkLFunction 0 (str "f") [str "x"] [])
      (gen (enter_function g (mkLFunction 0 (str "f") [str "x"] [])) body).
Proof.
  intros g proto body.
  assert (Hr : Reachable g) by (apply reach_gen, reach_new).
  assert (Hb : is_expr body = true) by reflexivity.
  split; [exact Hr | split; [exact Hb | split; [vm_compute; reflexivity|]]].
  pose proof (gen_function_reuses g proto body Hr Hb) as H.
  change (get_function g (name proto)) with (Ok (E := LLVMError) (mkLFunction 0 (str "f") [str "x"] [])) in H.
  exact (proj1 H).
Defined.

(** C5. A call of a name that no function of the module has fails with
    [FunctionNotFound] and changes nothing; a call with a number of
    arguments other than the function's arity fails with
    [InvalidArgumentsSize callee (length call_args)] before any argument is
    generated; otherwise the arguments are generated left to right, and on
    success a call instruction is emitted. *)
Theorem gen_call_checks (g : IRGenerator) (callee : rstring) (call_args : list ExprAST) :
  (ids_named g callee = [] ->
   gen g (Call callee call_args) = (Err (FunctionNotFound callee), g)) /\
  (forall f, get_function g callee = Ok f -> num_args f <> List.length call_args ->
   gen g (Call callee call_args) =
     (Err (InvalidArgumentsSize callee (List.length call_args)), g)) /\
  (forall f, get_function g callee = Ok f -> num_args f = List.length call_args ->
   gen g (Call callee call_args) =
     match gen_args gen g call_args with
     | (Err e, g1) => (Err e, g1)
     | (Ok values, g1) => let (v, g2) := create_call g1 f values in (Ok v, g2)
     end).
Proof.
  split; [|split].
  - intros H. cbn [gen]. rewrite (get_function_none g callee H). reflexivity.
  - intros f Hf Hn. cbn [gen]. rewrite Hf.
    apply Nat.eqb_neq in Hn. rewrite Hn. reflexivity.
  - intros f Hf Hn. cbn [gen]. rewrite Hf.
    apply Nat.eqb_eq in Hn. rewrite Hn. reflexivity.
Qed.

Lemma gen_call_checks_witness :
  let g := snd (gen IRGenerator_new (PrototypeExpr (mkPrototype (str "f") [str "a"; str "b"]))) in
  let f := mkLFunction 0 (str "f") [str "a"; str "b"] [] in
  gen g (Call (str "g") []) = (Err (FunctionNotFound (str "g")), g) /\
  gen g (Call (str "f") [NumberExpr 1]) = (Err (InvalidArgumentsSize (str "f") 1), g) /\
  gen g (Call (str "f") [NumberExpr 1; NumberExpr 2]) =
    (Ok (VInst 1), mkIRGenerator [f] 2 0 None []).
Proof.
  intros g f. destruct (gen_call_checks g (str "g") []) as [H1 _].
  destruct (gen_call_checks g (str "f") [NumberExpr 1]) as [_ [H2 _]].
  destruct (gen_call_checks g (str "f") [NumberExpr 1; NumberExpr 2]) as [_ [_ H3]].
  split; [apply H1; vm_compute; reflexivity|].
  split; [apply (H2 f); [vm_compute; reflexivity | unfold f, num_args; simpl; lia]|].
  rewrite (H3 f); [vm_compute; reflexivity | vm_compute; reflexivity | reflexivity].
Defined.

(** ** The scope of variables *)

Lemma lookup_filter_other (x k : rstring) (m : list (rstring * LLVMValue)) :
  rstring_eqb x k = false ->
  lookup x (filter (fun kv => negb (rstring_eqb k (fst kv))) m) = lookup x m.
Proof.
  intros Hxk. induction m as [|[k' v'] m IH]; [reflexivity|]. simpl.
  destruct (rstring_eqb k k') eqn:Ekk; simpl.
  - apply rstring_eqb_true in Ekk. subst k'. rewrite Hxk. exact IH.
  - destruct (rstring_eqb x k'); [reflexivity | exact IH].
Qed.

Lemma lookup_hm_insert (x k : rstring) (v : LLVMValue) (m : list (rstring * LLVMValue)) :
  lookup x (hm_insert k v m) = if rstring_eqb x k then Some v else lookup x m.
Proof.
  unfold hm_insert. simpl. destruct (rstring_eqb x k) eqn:E; [reflexivity|].
  apply lookup_filter_other, E.
Qed.

Lemma lookup_fold_insert (x : rstring) (l : list (rstring * LLVMValue)) :
  forall m, lookup x (fold_left (fun m a => hm_insert (fst a) (snd a) m) l m) = None <->
            ~ In x (map fst l) /\ lookup x m = None.
Proof.
  induction l as [|[k v] l IH]; intros m; simpl.
  - tauto.
  - rewrite IH, lookup_hm_insert. destruct (rstring_eqb x k) eqn:E.
    + apply rstring_eqb_true in E. subst k. split; [intros [_ H]; discriminate|].
      intros [H _]. exfalso. apply H. left. reflexivity.
    + assert (Hkx : k <> x) by (intros <-; rewrite rstring_eqb_refl in E; discriminate).
      split; [intros [H1 H2]; split; [intros [H | H]; contradiction | exact H2]|].
      intros [H1 H2]. split; [intros H; apply H1; right; exact H | exact H2].
Qed.

Lemma map_fst_combine {A B : Type} (l : list A) (l' : list B) :
  List.length l = List.length l' -> map fst (combine l l') = l.
Proof.
  revert l'. induction l as [|a l IH]; intros [|b l'] H; simpl in *; try discriminate;
    [reflexivity|]. f_equal. apply IH. lia.
Qed.

(** A name is bound in a function's scope exactly when it is one of the
    function's parameter names. *)
Lemma lookup_bind_args (x : rstring) (f : LFunction) :
  lookup x (bind_args f) = None <-> ~ In x (fparams f).
Proof.
  unfold bind_args. rewrite lookup_fold_insert. unfold fn_args.
  rewrite map_fst_combine by (rewrite length_map, length_seq; reflexivity).
  simpl. tauto.
Qed.

Lemma emits_named_values (g g' : IRGenerator) :
  emits g g' -> named_values g' = named_values g.
Proof.
  intros H. apply (emits_keep (fun h => named_values h = named_values g)) with g; [|exact H|reflexivity].
  intros h ins Hh. rewrite emit_named_values. exact Hh.
Qed.


(** C6 (counterexample). After "def f(x) x", a reference to [x] outside any
    body resolves to the parameter of [f] instead of failing. *)
Lemma scope_outlives_definition :
  let g := snd (gen IRGenerator_new
                  (FunctionExpr (mkPrototype (str "f") [str "x"]) (VariableExpr (str "x")))) in
  fst (gen g (VariableExpr (str "x"))) = Ok (VArg 0 0).
Proof. vm_compute. reflexivity. Qed.

(** C6 (amended). Variables are resolved in the scope only. A definition
    clears the scope and binds the parameters of its function at its start,
    and leaves that scope in place when it ends, after a success or a
    failure of its body; an expression or a declaration leaves the scope
    as it is. So after a definition a variable is bound exactly when it is a
    parameter of the function defined, and in a new generator no variable
    is bound. *)
Theorem gen_scope_persists (g : IRGenerator) (proto : Prototype) (body e : ExprAST)
    (p : Prototype) (nm : rstring) :
  is_expr body = true -> is_expr e = true ->
  gen g (VariableExpr nm) =
    (match lookup nm (named_values g) with
     | Some v => Ok v
     | None => Err (VariableNotFound nm)
     end, g) /\
  named_values (enter_function (snd (def_function g proto)) (fst (def_function g proto))) =
    bind_args (fst (def_function g proto)) /\
  named_values (snd (gen g (FunctionExpr proto body))) = bind_args (fst (def_function g proto)) /\
  (lookup nm (named_values (snd (gen g (FunctionExpr proto body)))) = None <->
   ~ In nm (fparams (fst (def_function g proto)))) /\
  named_values (snd (gen g e)) = named_values g /\
  named_values (snd (gen g (PrototypeExpr p))) = named_values g /\
  gen IRGenerator_new (VariableExpr nm) = (Err (VariableNotFound nm), IRGenerator_new).
Proof.
  intros Hb He.
  assert (Hdef : named_values (snd (gen g (FunctionExpr proto body))) =
                 bind_args (fst (def_function g proto))).
  { cbn [gen]. destruct (def_function g proto) as [f g1]. cbn [fst snd].
    pose proof (gen_expr_emits body Hb (enter_function g1 f)) as Hem.
    destruct (gen (enter_function g1 f) body) as [[v|err] g5]; cbn [finish_function snd] in *.
    - pose proof (emits_one g5 (IRet v)) as Hr. unfold create_ret.
      destruct (emit g5 (IRet v)) as [rv g6]. cbn [snd] in *.
      rewrite (emits_named_values _ _ (emits_trans _ _ _ Hem Hr)). unfold enter_function.
      destruct (create_basic_block g1 f). reflexivity.
    - change (named_values (delete g5 f)) with (named_values g5).
      rewrite (emits_named_values _ _ Hem). unfold enter_function.
      destruct (create_basic_block g1 f). reflexivity. }
  split; [cbn [gen]; destruct (lookup nm (named_values g)); reflexivity|].
  split; [unfold enter_function; destruct (create_basic_block _ _); reflexivity|].
  split; [exact Hdef|].
  split; [rewrite Hdef; apply lookup_bind_args|].
  split; [apply emits_named_values, gen_expr_emits, He|].
  split; [|reflexivity].
  cbn [gen]. unfold gen_proto, add_function.
  destruct (create_value_name _ _ _ _). reflexivity.
Qed.

Lemma gen_scope_persists_witness :
  let g := IRGenerator_new in
  let proto := mkPrototype (str "f") [str "x"] in
  is_expr (VariableExpr (str "x")) = true /\
  (lookup (str "x") (named_values (snd (gen g (FunctionExpr proto (VariableExpr (str "x")))))) = None <->
   ~ In (str "x") (fparams (fst (def_function g proto)))).
Proof.
  intros g proto. split; [reflexivity|].
  exact (proj1 (proj2 (proj2 (proj2
           (gen_scope_persists g proto (VariableExpr (str "x")) (NumberExpr 0) proto (str "x")
              eq_refl eq_refl))))).
Defined.

(** C9. A definition that reuses a function binds the parameter names
    stored on that function, not those of its own prototype: the result does
    not depend on the prototype's parameters, and a body that refers to a
    name that is not a stored parameter fails with [VariableNotFound]. *)
Theorem gen_function_reuse_scope (g : IRGenerator) (proto : Prototype) (body : ExprAST)
    (f : LFunction) (x : rstring) :
  get_function g (name proto) = Ok f ->
  named_values (enter_function g f) = bind_args f /\
  (forall args' : list rstring,
     gen g (FunctionExpr (mkPrototype (name proto) args') body) = gen g (FunctionExpr proto body)) /\
  (~ In x (fparams f) ->
   fst (gen g (FunctionExpr proto (VariableExpr x))) = Err (VariableNotFound x)).
Proof.
  intros Hf.
  assert (Hnv : named_values (enter_function g f) = bind_args f)
    by (unfold enter_function; destruct (create_basic_block g f); reflexivity).
  split; [exact Hnv | split].
  - intros args'. cbn [gen]. unfold def_function. cbn [name]. rewrite Hf. reflexivity.
  - intros Hx. cbn [gen]. unfold def_function. rewrite Hf. cbn [gen].
    rewrite Hnv. apply lookup_bind_args in Hx. rewrite Hx. reflexivity.
Qed.

Lemma gen_function_reuse_scope_witness :
  let g := snd (gen IRGenerator_new (PrototypeExpr (mkPrototype (str "f") [str "x"]))) in
  let f := mkLFunction 0 (str "f") [str "x"] [] in
  get_function g (str "f") = Ok f /\ ~ In (str "y") (fparams f) /\
  fst (gen g (FunctionExpr (mkPrototype (str "f") [str "y"]) (VariableExpr (str "y")))) =
    Err (VariableNotFound (str "y")).
Proof.
  intros g f.
  assert (Hf : get_function g (str "f") = Ok f) by (vm_compute; reflexivity).
  assert (Hy : ~ In (str "y") (fparams f)) by (simpl; intros [H | []]; discriminate).
  split; [exact Hf | split; [exact Hy|]].
  exact (proj2 (proj2 (gen_function_reuse_scope g (mkPrototype (str "f") [str "y"])
                         (VariableExpr (str "y")) f (str "y") Hf)) Hy).
Defined.

(** ** The blocks of a function *)

Lemma fid_inj (l : list LFunction) (a b : LFunction) :
  NoDup (map fid l) -> In a l -> In b l -> fid a = fid b -> a = b.
Proof.
  induction l as [|h l IH]; intros Hd Ha Hb Heq; [destruct Ha|].
  simpl in Hd. inversion Hd as [|x xs Hnin Hd']; subst.
  destruct Ha as [<- | Ha], Hb as [<- | Hb]; [reflexivity | | | apply IH; assumption];
    exfalso; apply Hnin; [rewrite Heq | rewrite <- Heq]; apply in_map; assumption.
Qed.

Lemma find_function_get (g : IRGenerator) (n : rstring) (f : LFunction) :
  wf g -> get_function g n = Ok f -> find_function g (fid f) = Some f.
Proof.
  intros (_ & Hd & _) Hget. unfold get_function in Hget.
  destruct (find (named n) (funcs g)) as [f'|] eqn:E; [|discriminate].
  injection Hget as <-. apply find_some in E as [Hin _].
  unfold find_function.
  destruct (find (fun h => Nat.eqb (fid h) (fid f')) (funcs g)) as [h|] eqn:Eh.
  - apply find_some in Eh as [Hh Heq]. apply Nat.eqb_eq in Heq.
    f_equal. exact (fid_inj _ _ _ Hd Hh Hin Heq).
  - pose proof (find_none _ _ Eh f' Hin) as Hc. simpl in Hc.
    rewrite Nat.eqb_refl in Hc. discriminate.
Qed.

Lemma find_update_same (g : IRGenerator) (id : nat) (u : list Block -> list Block) :
  find_function (update_function g id u) id =
  option_map (fun h => mkLFunction (fid h) (fname h) (fparams h) (u (fblocks h)))
             (find_function g id).
Proof.
  unfold find_function, update_function. simpl.
  induction (funcs g) as [|h l IH]; [reflexivity|]. simpl.
  destruct (Nat.eqb (fid h) id) eqn:E; simpl; rewrite ?E; [reflexivity | exact IH].
Qed.

Lemma append_at_last (pre : list Block) (b : Block) (x : nat * Instr) :
  append_at (List.length pre) x (pre ++ [b]) = pre ++ [b ++ [x]].
Proof. induction pre as [|b' pre IH]; simpl; [reflexivity | rewrite IH; reflexivity]. Qed.

(** The builder is at the end of the last block of [f], whose earlier
    blocks are [pre]. *)
Definition building (f : LFunction) (pre : list Block) (nb : Block) (g : IRGenerator) : Prop :=
  find_function g (fid f) = Some (mkLFunction (fid f) (fname f) (fparams f) (pre ++ [nb])) /\
  insert_point g = Some (fid f, List.length pre).

Lemma emit_building (f : LFunction) (pre : list Block) (nb : Block) (g : IRGenerator)
    (ins : Instr) :
  building f pre nb g -> building f pre (nb ++ [(next_handle g, ins)]) (snd (emit g ins)).
Proof.
  intros [Hf Hi]. unfold emit. rewrite Hi. cbn [snd]. split; [|reflexivity].
  rewrite find_update_same. unfold find_function in *. cbn [funcs]. rewrite Hf. cbn [option_map fblocks].
  rewrite append_at_last. reflexivity.
Qed.

Lemma emits_building (f : LFunction) (pre : list Block) (g g' : IRGenerator) :
  emits g g' -> (exists nb, building f pre nb g) -> exists nb, building f pre nb g'.
Proof.
  apply (emits_keep (fun h => exists nb, building f pre nb h)).
  intros h ins [nb Hb]. eexists. apply emit_building, Hb.
Qed.

Lemma enter_building (g : IRGenerator) (f : LFunction) :
  find_function g (fid f) = Some f -> building f (fblocks f) [] (enter_function g f).
Proof.
  intros Hf. unfold enter_function, create_basic_block. rewrite Hf.
  unfold building, set_named_values, set_insert_point. cbn [insert_point].
  split; [|reflexivity].
  change (find_function (update_function g (fid f) (fun bs : list Block => bs ++ [[]])) (fid f) =
          Some (mkLFunction (fid f) (fname f) (fparams f) (fblocks f ++ [[]]))).
  rewrite find_update_same, Hf. reflexivity.
Qed.

(** C10. A definition that reuses a function appends a fresh block to it
    and generates the body there, up to its [ret]; the blocks the function
    had are kept as they were. *)
Theorem gen_function_appends_block (g g' : IRGenerator) (proto : Prototype) (body : ExprAST)
    (f : LFunction) (v : LLVMValue) :
  Reachable g -> get_function g (name proto) = Ok f -> is_expr body = true ->
  gen g (FunctionExpr proto body) = (Ok v, g') ->
  find_function g (fid f) = Some f /\
  exists (nb : Block) (i : nat) (rv : LLVMValue),
    find_function g' (fid f) =
      Some (mkLFunction (fid f) (fname f) (fparams f) (fblocks f ++ [nb ++ [(i, IRet rv)]])).
Proof.
  intros Hr Hf Hb H.
  pose proof (find_function_get g _ f (reachable_wf g Hr) Hf) as Hfind.
  split; [exact Hfind|].
  cbn [gen] in H. unfold def_function in H. rewrite Hf in H.
  pose proof (emits_building f (fblocks f) _ _ (gen_expr_emits body Hb (enter_function g f))
                (ex_intro _ [] (enter_building g f Hfind))) as [nb Hnb].
  destruct (gen (enter_function g f) body) as [[v0|e0] g5]; cbn [finish_function snd] in H, Hnb;
    [|discriminate].
  pose proof (emit_building f (fblocks f) nb g5 (IRet v0) Hnb) as [Hg6 _].
  unfold create_ret in H. destruct (emit g5 (IRet v0)) as [rv g6].
  injection H as _ <-. exists nb, (next_handle g5), v0. exact Hg6.
Qed.

Lemma gen_function_appends_block_witness :
  let g := snd (gen IRGenerator_new
                  (FunctionExpr (mkPrototype (str "f") [str "x"]) (VariableExpr (str "x")))) in
  let proto := mkPrototype (str "f") [str "x"] in
  let body := BinaryOp Plus (VariableExpr (str "x")) (NumberExpr 1) in
  let f := mkLFunction 0 (str "f") [str "x"] [[(1, IRet (VArg 0 0))]] in
  Reachable g /\ get_function g (name proto) = Ok f /\ is_expr body = true /\
  gen g (FunctionExpr proto body) = (Ok (VFunc 0), snd (gen g (FunctionExpr proto body))) /\
  exists (nb : Block) (i : nat) (rv : LLVMValue),
    find_function (snd (gen g (FunctionExpr proto body))) 0 =
      Some (mkLFunction 0 (str "f") [str "x"] ([[(1, IRet (VArg 0 0))]] ++ [nb ++ [(i, IRet rv)]])).
Proof.
  intros g proto body f.
  assert (Hr : Reachable g) by (apply reach_gen, reach_new).
  assert (Hf : get_function g (name proto) = Ok f) by (vm_compute; reflexivity).
  assert (Hb : is_expr body = true) by reflexivity.
  assert (H : gen g (FunctionExpr proto body) = (Ok (VFunc 0), snd (gen g (FunctionExpr proto body))))
    by (vm_compute; reflexivity).
  split; [exact Hr | split; [exact Hf | split; [exact Hb | split; [exact H|]]]].
  exact (proj2 (gen_function_appends_block g _ proto body f (VFunc 0) Hr Hf Hb H)).
Defined.

(** ** More of the lexer *)

Lemma skip_chars_from_app (p : char -> bool) (c : char) (pre rest : list char) :
  forallb p (c :: pre) = true ->
  (match rest with [] => True | c' :: _ => p c' = false end) ->
  skip_chars_from p (Some c) (pre ++ rest) = Lexer_new rest.
Proof.
  revert c. induction pre as [|c1 pre IH]; intros c Hp Hr; simpl in Hp;
    apply andb_prop in Hp as [Hc Hp].
  - destruct rest as [|c' rest]; simpl; rewrite Hc; [reflexivity|].
    destruct rest; simpl; rewrite Hr; reflexivity.
  - simpl. rewrite Hc. apply IH; [exact Hp | exact Hr].
Qed.

Lemma get_chars_from_app (p : char -> bool) (c : char) (pre rest : list char) :
  forallb p (c :: pre) = true ->
  (match rest with [] => True | c' :: _ => p c' = false end) ->
  get_chars_from p (Some c) (pre ++ rest) = (c :: pre, Lexer_new rest).
Proof.
  revert c. induction pre as [|c1 pre IH]; intros c Hp Hr; simpl in Hp;
    apply andb_prop in Hp as [Hc Hp].
  - destruct rest as [|c' rest]; simpl; rewrite Hc; [reflexivity|].
    destruct rest; simpl; rewrite Hr; reflexivity.
  - simpl. rewrite Hc, (IH c1 Hp Hr). reflexivity.
Qed.
Lemma skip_chars_from_size (p : char -> bool) (lc : option char) (it : list char) :
  lexer_size (skip_chars_from p lc it) <= lexer_size (mkLexer it lc).
Proof.
  revert lc. induction it as [|c it IH]; intros [c0|]; simpl.
  - destruct (p c0); unfold lexer_size; simpl; lia.
  - unfold lexer_size; simpl; lia.
  - destruct (p c0); [|unfold lexer_size; simpl; lia].
    specialize (IH (Some c)). unfold lexer_size in *. simpl in *. lia.
  - unfold lexer_size; simpl; lia.
Qed.

Lemma skip_chars_size (p : char -> bool) (s : Lexer) :
  lexer_size (skip_chars p s) <= lexer_size s.
Proof. destruct s. apply skip_chars_from_size. Qed.

Lemma consume_char_size (s : Lexer) : lexer_size (consume_char s) = List.length (iter s).
Proof. destruct s as [[|c it] lc]; unfold lexer_size; simpl; lia. Qed.

Lemma get_token_fuel_enough (n : nat) :
  forall m s, lexer_size s <= n -> lexer_size s <= m -> get_token_fuel n s = get_token_fuel m s.
Proof.
  induction n as [|n IH]; intros m s Hn Hm.
  - destruct s as [[|c it] [lc|]]; unfold lexer_size in Hn; simpl in Hn; try lia.
    destruct m; reflexivity.
  - destruct m as [|m].
    + destruct s as [[|c it] [lc|]]; unfold lexer_size in Hm; simpl in Hm; try lia. reflexivity.
    + cbn [get_token_fuel].
      set (s1 := match last_char s with
                 | Some c => if is_ascii_whitespace c then skip_chars is_ascii_whitespace s else s
                 | None => s
                 end).
      assert (H1 : lexer_size s1 <= lexer_size s).
      { unfold s1. destruct (last_char s); [destruct (is_ascii_whitespace c)|]; 
          [apply skip_chars_size | lia | lia]. }
      clearbody s1. unfold get_char.
      destruct (last_char s1) as [c|] eqn:Ec; [|reflexivity].
      assert (H2 : lexer_size (consume_char s1) < lexer_size s1).
      { rewrite consume_char_size. unfold lexer_size. rewrite Ec. lia. }
      destruct (is_ascii_alphabetic c); [reflexivity|].
      destruct (is_number_char c); [reflexivity|].
      destruct (c =? chr_hash)%N; [|reflexivity].
      pose proof (skip_chars_size not_newline (consume_char s1)) as H3.
      destruct (last_char (skip_chars not_newline (consume_char s1))); [|reflexivity].
      apply IH; lia.
Qed.

(** Lines 49-53 of [Lexer::get_token]: skip the whitespace before a token. *)
Definition skip_leading_whitespace (s : Lexer) : Lexer :=
  match last_char s with
  | Some c => if is_ascii_whitespace c then skip_chars is_ascii_whitespace s else s
  | None => s
  end.

Lemma skip_chars_from_stops (p : char -> bool) (lc : option char) (it : list char) :
  match last_char (skip_chars_from p lc it) with Some c => p c = false | None => True end.
Proof.
  revert lc. induction it as [|c it IH]; intros [c0|]; simpl; try exact I;
    destruct (p c0) eqn:E; simpl; auto; apply IH.
Qed.

Lemma skip_leading_whitespace_idem (s : Lexer) :
  skip_leading_whitespace (skip_leading_whitespace s) = skip_leading_whitespace s.
Proof.
  pose proof (skip_chars_from_stops is_ascii_whitespace (last_char s) (iter s)) as H.
  unfold skip_leading_whitespace. destruct (last_char s) as [c|] eqn:Ec; [|rewrite Ec; reflexivity].
  destruct (is_ascii_whitespace c) eqn:Ew; [|rewrite Ec, Ew; reflexivity].
  unfold skip_chars in *. rewrite Ec in *.
  destruct (last_char (skip_chars_from is_ascii_whitespace (Some c) (iter s)));
    [rewrite H|]; reflexivity.
Qed.

Lemma get_token_fuel_skip (n : nat) (s : Lexer) :
  get_token_fuel n s = get_token_fuel n (skip_leading_whitespace s).
Proof.
  destruct n; cbn [get_token_fuel]; fold (skip_leading_whitespace s);
    fold (skip_leading_whitespace (skip_leading_whitespace s));
    rewrite skip_leading_whitespace_idem; reflexivity.
Qed.

Lemma lexer_size_new (l : list char) : lexer_size (Lexer_new l) = List.length l.
Proof. destruct l; unfold lexer_size; simpl; lia. Qed.

Lemma skip_chars_new (p : char -> bool) (pre rest : list char) :
  forallb p pre = true ->
  (match rest with [] => True | c :: _ => p c = false end) ->
  skip_chars p (Lexer_new (pre ++ rest)) = Lexer_new rest.
Proof.
  intros Hp Hr. destruct pre as [|c pre].
  - destruct rest as [|c [|c' rest]]; [reflexivity| |];
      unfold skip_chars; simpl; rewrite Hr; reflexivity.
  - apply skip_chars_from_app; assumption.
Qed.

Lemma get_chars_new (p : char -> bool) (c0 : char) (pre rest : list char) :
  forallb p pre = true ->
  (match rest with [] => True | c :: _ => p c = false end) ->
  get_chars (Lexer_new (pre ++ rest)) c0 p = (c0 :: pre, Lexer_new rest).
Proof.
  intros Hp Hr. destruct pre as [|c pre].
  - destruct rest as [|c [|c' rest]]; [reflexivity| |];
      unfold get_chars; simpl; rewrite Hr; reflexivity.
  - unfold get_chars. cbn [Lexer_new iter_next app last_char iter].
    rewrite (get_chars_from_app p c pre rest Hp Hr). reflexivity.
Qed.

Lemma skip_leading_whitespace_new (rest : list char) :
  (match rest with [] => True | c :: _ => is_ascii_whitespace c = false end) ->
  skip_leading_whitespace (Lexer_new rest) = Lexer_new rest.
Proof.
  destruct rest as [|c rest]; [reflexivity|]. intros Hr.
  unfold skip_leading_whitespace. simpl. rewrite Hr. reflexivity.
Qed.

Lemma get_token_new (l : list char) (n : nat) :
  List.length l <= n -> get_token (Lexer_new l) = get_token_fuel n (Lexer_new l).
Proof.
  intros H. unfold get_token. apply get_token_fuel_enough; rewrite lexer_size_new; lia.
Qed.

(** Whitespace before a token is skipped: the token and the lexer left
    are those of the input without it. *)
Theorem get_token_skips_whitespace (ws rest : list char) :
  forallb is_ascii_whitespace ws = true ->
  (match rest with [] => True | c :: _ => is_ascii_whitespace c = false end) ->
  get_token (Lexer_new (ws ++ rest)) = get_token (Lexer_new rest).
Proof.
  intros Hw Hr. destruct ws as [|w ws']; [reflexivity|].
  unfold get_token at 1. rewrite get_token_fuel_skip.
  assert (E : skip_leading_whitespace (Lexer_new ((w :: ws') ++ rest)) = Lexer_new rest).
  { unfold skip_leading_whitespace. simpl in Hw |- *. apply andb_prop in Hw as [Hw1 Hw2].
    rewrite Hw1. apply (skip_chars_new is_ascii_whitespace (w :: ws') rest); simpl;
      [rewrite Hw1, Hw2; reflexivity | exact Hr]. }
  rewrite E, <- (skip_leading_whitespace_new rest Hr) at 1. rewrite <- get_token_fuel_skip.
  symmetry. apply get_token_new. rewrite lexer_size_new, length_app. simpl. lia.
Qed.

(** A line comment, from ['#'] to the end of its line, is skipped: the
    token is the one after the line end. *)
Theorem get_token_skips_comment (cm rest : list char) (nl : char) :
  forallb not_newline cm = true -> not_newline nl = false ->
  get_token (Lexer_new (chr_hash :: cm ++ nl :: rest)) = get_token (Lexer_new (nl :: rest)).
Proof.
  intros Hc Hn. unfold get_token at 1. rewrite lexer_size_new. cbn [List.length get_token_fuel].
  change (Lexer_new (chr_hash :: cm ++ nl :: rest)) with (mkLexer (cm ++ nl :: rest) (Some chr_hash)).
  cbn [last_char]. change (is_ascii_whitespace chr_hash) with false. cbv iota.
  unfold get_char. cbn [last_char].
  change (consume_char (mkLexer (cm ++ nl :: rest) (Some chr_hash))) with (Lexer_new (cm ++ nl :: rest)).
  change (is_ascii_alphabetic chr_hash) with false. change (is_number_char chr_hash) with false.
  change ((chr_hash =? chr_hash)%N) with true. cbv iota beta.
  rewrite (skip_chars_new not_newline cm (nl :: rest) Hc Hn).
  change (last_char (Lexer_new (nl :: rest))) with (Some nl). cbv iota.
  symmetry. apply get_token_new. rewrite length_app. simpl. lia.
Qed.

(** A comment that runs to the end of the input gives [EOF]. *)
Theorem get_token_comment_to_end (cm : list char) :
  forallb not_newline cm = true ->
  get_token (Lexer_new (chr_hash :: cm)) = (Ok EOF, Lexer_new []).
Proof.
  intros Hc. unfold get_token. rewrite lexer_size_new. cbn [List.length get_token_fuel].
  change (Lexer_new (chr_hash :: cm)) with (mkLexer cm (Some chr_hash)).
  cbn [last_char]. change (is_ascii_whitespace chr_hash) with false. cbv iota.
  unfold get_char. cbn [last_char].
  change (consume_char (mkLexer cm (Some chr_hash))) with (Lexer_new cm).
  change (is_ascii_alphabetic chr_hash) with false. change (is_number_char chr_hash) with false.
  change ((chr_hash =? chr_hash)%N) with true. cbv iota beta.
  rewrite <- (app_nil_r cm), (skip_chars_new not_newline cm [] Hc I). reflexivity.
Qed.

Ltac char_class :=
  unfold is_number_char, is_ascii_alphanumeric, is_ascii_whitespace, is_ascii_alphabetic,
    is_ascii_digit, not_newline, chr_dot, chr_hash, chr_lf, chr_cr in *;
  repeat match goal with
         | H : _ = false |- _ => apply not_true_iff_false in H
         | |- _ = false => apply not_true_iff_false; intro
         end;
  rewrite ?orb_true_iff, ?andb_true_iff, ?negb_true_iff, ?N.leb_le, ?N.eqb_eq in *;
  lia.

Lemma alphabetic_not_whitespace (c : char) :
  is_ascii_alphabetic c = true -> is_ascii_whitespace c = false.
Proof. intros H. char_class. Qed.

Lemma number_char_not_whitespace (c : char) :
  is_number_char c = true -> is_ascii_whitespace c = false.
Proof. intros H. char_class. Qed.

Lemma alphabetic_not_number (c : char) :
  is_ascii_alphabetic c = true -> is_number_char c = false.
Proof. intros H. char_class. Qed.

(** A word (a letter, then letters and digits) is read whole: [def] and
    [extern] are keywords only as whole words, any other word is an
    identifier. *)
Theorem get_token_word (c : char) (w rest : list char) :
  is_ascii_alphabetic c = true -> forallb is_ascii_alphanumeric w = true ->
  (match rest with [] => True | c' :: _ => is_ascii_alphanumeric c' = false end) ->
  get_token (Lexer_new (c :: w ++ rest)) =
    (Ok (if rstring_eqb (c :: w) (str "def") then Def
         else if rstring_eqb (c :: w) (str "extern") then Extern
         else Identifier (c :: w)), Lexer_new rest).
Proof.
  intros Hc Hw Hr. unfold get_token. rewrite lexer_size_new. cbn [List.length get_token_fuel].
  change (Lexer_new (c :: w ++ rest)) with (mkLexer (w ++ rest) (Some c)).
  cbn [last_char]. rewrite (alphabetic_not_whitespace c Hc).
  unfold get_char. cbn [last_char].
  change (consume_char (mkLexer (w ++ rest) (Some c))) with (Lexer_new (w ++ rest)).
  rewrite Hc, (get_chars_new is_ascii_alphanumeric c w rest Hw Hr). reflexivity.
Qed.

(** A run of digits and dots is read whole and handed to [parse_f64]. *)
Theorem get_token_number (c : char) (w rest : list char) :
  is_number_char c = true -> forallb is_number_char w = true ->
  (match rest with [] => True | c' :: _ => is_number_char c' = false end) ->
  get_token (Lexer_new (c :: w ++ rest)) =
    (match parse_f64 (c :: w) with
     | Ok x => Ok (Number x)
     | Err e => Err (InvalidNumber e)
     end, Lexer_new rest).
Proof.
  intros Hc Hw Hr. unfold get_token. rewrite lexer_size_new. cbn [List.length get_token_fuel].
  change (Lexer_new (c :: w ++ rest)) with (mkLexer (w ++ rest) (Some c)).
  cbn [last_char]. rewrite (number_char_not_whitespace c Hc).
  unfold get_char. cbn [last_char].
  change (consume_char (mkLexer (w ++ rest) (Some c))) with (Lexer_new (w ++ rest)).
  assert (Ha : is_ascii_alphabetic c = false) by char_class.
  rewrite Ha, Hc, (get_chars_new is_number_char c w rest Hw Hr).
  destruct (parse_f64 (c :: w)); reflexivity.
Qed.

Lemma decimal_of_number_chars (w : list char) :
  forallb is_number_char w = true ->
  forall m k d, exists r, decimal_of w m k d = Some r.
Proof.
  induction w as [|c w IH]; intros Hw m k d; [eexists; reflexivity|].
  simpl in Hw. apply andb_prop in Hw as [Hc Hw]. simpl.
  destruct (c =? chr_dot)%N eqn:Ed; [apply IH, Hw|].
  assert (Hd : is_ascii_digit c = true) by (unfold is_number_char in Hc; rewrite Ed, orb_false_r in Hc; exact Hc).
  rewrite Hd. apply IH, Hw.
Qed.

(** On a run of digits and dots, [parse_f64] fails exactly when the run
    has more than one dot or no digit, and never reports it as empty. *)
Theorem parse_f64_number_chars (w : list char) :
  w <> [] -> forallb is_number_char w = true ->
  (parse_f64 w = Err PFInvalid <-> (1 < count_dots w \/ count_digits w = 0)%nat) /\
  parse_f64 w <> Err PFEmpty.
Proof.
  intros Hne Hw. unfold parse_f64. destruct w as [|c w']; [congruence|].
  set (w := c :: w') in *.
  destruct (decimal_of_number_chars w Hw 0 0 false) as [[m k] Hm].
  destruct ((1 <? count_dots w)%nat || (count_digits w =? 0)%nat) eqn:E.
  - apply orb_true_iff in E. rewrite Nat.ltb_lt, Nat.eqb_eq in E.
    split; [tauto | discriminate].
  - apply orb_false_iff in E as [E1 E2]. apply Nat.ltb_ge in E1. apply Nat.eqb_neq in E2.
    rewrite Hm. destruct m; (split; [split; [discriminate | intros [H | H]; lia] | discriminate]).
Qed.

(** A character that starts no token is reported, and only it is
    consumed. *)
Theorem get_token_unknown (c : char) (rest : list char) :
  is_ascii_whitespace c = false -> is_ascii_alphabetic c = false ->
  is_number_char c = false -> (c =? chr_hash)%N = false ->
  get_token (Lexer_new (c :: rest)) = (Err (UnknownInitial c), Lexer_new rest).
Proof.
  intros Hw Ha Hn Hh. unfold get_token. rewrite lexer_size_new. cbn [List.length get_token_fuel].
  change (Lexer_new (c :: rest)) with (mkLexer rest (Some c)).
  cbn [last_char]. rewrite Hw. unfold get_char. cbn [last_char].
  rewrite Ha, Hn, Hh. reflexivity.
Qed.

Lemma get_chars_from_size (p : char -> bool) (lc : option char) (it : list char) :
  lexer_size (snd (get_chars_from p lc it)) <= lexer_size (mkLexer it lc).
Proof.
  revert lc. induction it as [|c it IH]; intros [c0|]; simpl.
  - destruct (p c0); unfold lexer_size; simpl; lia.
  - unfold lexer_size; simpl; lia.
  - destruct (p c0); [|unfold lexer_size; simpl; lia].
    specialize (IH (Some c)). destruct (get_chars_from p (Some c) it) as [cs s'].
    unfold lexer_size in *. simpl in *. lia.
  - unfold lexer_size; simpl; lia.
Qed.

Lemma get_chars_size (s : Lexer) (c : char) (p : char -> bool) :
  lexer_size (snd (get_chars s c p)) <= lexer_size s.
Proof.
  unfold get_chars. pose proof (get_chars_from_size p (last_char s) (iter s)) as H.
  destruct (get_chars_from p (last_char s) (iter s)). destruct s. exact H.
Qed.

(** What [get_token_fuel] can return, and that it consumes a character
    whenever it returns anything but [EOF]. *)
Lemma get_token_fuel_progress (n : nat) :
  forall s, let (r, s') := get_token_fuel n s in
  match r with
  | Ok EOF => True
  | Ok Def | Ok Extern | Ok (Identifier _) | Ok (Number _) | Err _ =>
      lexer_size s' < lexer_size s
  | Ok _ => False
  end.
Proof.
  induction n as [|n IH]; intros s; cbn [get_token_fuel];
  (set (s1 := match last_char s with
              | Some c => if is_ascii_whitespace c then skip_chars is_ascii_whitespace s else s
              | None => s
              end);
   assert (H1 : lexer_size s1 <= lexer_size s)
     by (unfold s1; destruct (last_char s); [destruct (is_ascii_whitespace c)|];
         [apply skip_chars_size | lia | lia]);
   clearbody s1; unfold get_char;
   destruct (last_char s1) as [c|] eqn:Ec; [|exact I];
   assert (H2 : lexer_size (consume_char s1) < lexer_size s1)
     by (rewrite consume_char_size; unfold lexer_size; rewrite Ec; lia);
   destruct (is_ascii_alphabetic c);
   [pose proof (get_chars_size (consume_char s1) c is_ascii_alphanumeric) as H3;
    destruct (get_chars (consume_char s1) c is_ascii_alphanumeric) as [ident s3]; simpl in H3;
    destruct (rstring_eqb ident (str "def")); [|destruct (rstring_eqb ident (str "extern"))];
    lia|];
   destruct (is_number_char c);
   [pose proof (get_chars_size (consume_char s1) c is_number_char) as H3;
    destruct (get_chars (consume_char s1) c is_number_char) as [num s3]; simpl in H3;
    destruct (parse_f64 num); lia|];
   destruct (c =? chr_hash)%N; [|lia];
   pose proof (skip_chars_size not_newline (consume_char s1)) as H3;
   destruct (last_char (skip_chars not_newline (consume_char s1))); [|exact I]).
  - exact I.
  - specialize (IH (skip_chars not_newline (consume_char s1))).
    destruct (get_token_fuel n (skip_chars not_newline (consume_char s1))) as [r s'].
    destruct r as [[]|]; lia || exact I.
Qed.

Lemma next_progress (s : Lexer) :
  match next s with
  | (None, _) => True
  | (Some (Ok t), s') =>
      lexer_size s' < lexer_size s /\
      match t with Def | Extern | Identifier _ | Number _ => True | _ => False end
  | (Some (Err _), s') => lexer_size s' < lexer_size s
  end.
Proof.
  unfold next, get_token. pose proof (get_token_fuel_progress (lexer_size s) s) as H.
  destruct (get_token_fuel (lexer_size s) s) as [[t|e] s'];
    [destruct t; try contradiction; auto | exact H].
Qed.

(** Iterating the lexer ends: [next] returns [None] within one call more
    than the characters left. *)
Theorem lexer_iteration_terminates (s : Lexer) : snd (iterate (S (lexer_size s)) s) = true.
Proof.
  assert (H : forall n s, lexer_size s < n -> snd (iterate n s) = true).
  { induction n as [|n IH]; intros s0 Hs; [lia|]. simpl.
    pose proof (next_progress s0) as Hp.
    destruct (next s0) as [[[t|e]|] s']; [| |reflexivity];
      [destruct Hp as [Hp _] |];
      specialize (IH s' ltac:(lia)); destruct (iterate n s'); exact IH. }
  apply H. lia.
Qed.

(** The tokens the iteration yields are keywords, identifiers and
    numbers only. *)
Theorem next_token_kinds (s s' : Lexer) (t : Token) :
  next s = (Some (Ok t), s') ->
  match t with Def | Extern | Identifier _ | Number _ => True | _ => False end.
Proof.
  intros H. pose proof (next_progress s) as Hp. rewrite H in Hp. exact (proj2 Hp).
Qed.

(** [get_chars] reads the longest run of characters satisfying the
    predicate, after the initial one, and stops at the first other one. *)
Theorem get_chars_longest_prefix (p : char -> bool) (c0 : char) (pre rest : list char) :
  forallb p pre = true ->
  (match rest with [] => True | c :: _ => p c = false end) ->
  get_chars (Lexer_new (pre ++ rest)) c0 p = (c0 :: pre, Lexer_new rest).
Proof. apply get_chars_new. Qed.

(** [skip_chars] drops the longest run of characters satisfying the
    predicate and stops at the first other one. *)
Theorem skip_chars_longest_prefix (p : char -> bool) (pre rest : list char) :
  forallb p pre = true ->
  (match rest with [] => True | c :: _ => p c = false end) ->
  skip_chars p (Lexer_new (pre ++ rest)) = Lexer_new rest.
Proof. apply skip_chars_new. Qed.

Lemma get_chars_longest_prefix_witness :
  get_chars (Lexer_new (str "ib" ++ str " x")) 102%N is_ascii_alphanumeric =
    (str "fib", Lexer_new (str " x")).
Proof. apply get_chars_longest_prefix; reflexivity. Defined.

Lemma skip_chars_longest_prefix_witness :
  skip_chars is_ascii_whitespace (Lexer_new (str "  " ++ str "x")) = Lexer_new (str "x").
Proof. apply skip_chars_longest_prefix; reflexivity. Defined.

Lemma get_token_skips_whitespace_witness :
  get_token (Lexer_new (str " 	 " ++ str "def")) = get_token (Lexer_new (str "def")).
Proof. apply get_token_skips_whitespace; reflexivity. Defined.

Lemma get_token_skips_comment_witness :
  get_token (Lexer_new (chr_hash :: str " note" ++ chr_lf :: str "x")) =
    get_token (Lexer_new (chr_lf :: str "x")).
Proof. apply get_token_skips_comment; reflexivity. Defined.

Lemma get_token_comment_to_end_witness :
  get_token (Lexer_new (chr_hash :: str " note")) = (Ok EOF, Lexer_new []).
Proof. apply get_token_comment_to_end; reflexivity. Defined.

Lemma get_token_word_witness :
  get_token (Lexer_new (100%N :: str "efine" ++ str " x")) =
    (Ok (Identifier (str "define")), Lexer_new (str " x")).
Proof. rewrite get_token_word; reflexivity. Defined.

Lemma get_token_number_witness :
  get_token (Lexer_new (49%N :: str ".2.3" ++ str " x")) =
    (Err (InvalidNumber PFInvalid), Lexer_new (str " x")).
Proof. rewrite get_token_number; [vm_compute| | |]; reflexivity. Defined.

Lemma parse_f64_number_chars_witness :
  parse_f64 (str "1.2.3") = Err PFInvalid.
Proof.
  apply (parse_f64_number_chars (str "1.2.3")); [discriminate | reflexivity |].
  left. vm_compute. reflexivity.
Defined.

Lemma get_token_unknown_witness :
  get_token (Lexer_new (str "(x")) = (Err (UnknownInitial 40%N), Lexer_new (str "x")).
Proof. apply get_token_unknown; reflexivity. Defined.

Lemma next_token_kinds_witness :
  next (Lexer_new (str "def")) = (Some (Ok Def), snd (next (Lexer_new (str "def")))) /\
  match Def with Def | Extern | Identifier _ | Number _ => True | _ => False end.
Proof.
  assert (H : next (Lexer_new (str "def")) = (Some (Ok Def), snd (next (Lexer_new (str "def")))))
    by (vm_compute; reflexivity).
  split; [exact H | exact (next_token_kinds _ _ _ H)].
Defined.

(** ** More of the parser *)

(** [parse_prototype]'s argument loop takes every leading identifier. *)
Lemma parse_prototype_args_app (a : list rstring) (ts : list Token) :
  (match ts with Identifier _ :: _ => False | _ => True end) ->
  parse_prototype_args (map Identifier a ++ ts) = (a, ts).
Proof.
  intros Hts. induction a as [|x a IH]; simpl.
  - destruct ts as [|[] ts]; try reflexivity. contradiction.
  - rewrite IH. reflexivity.
Qed.

(** [parse_prototype] on a name, '(' and identifiers: the arguments are all
    the identifiers, and a ')' must follow them. *)
Theorem parse_prototype_shape (n : rstring) (a : list rstring) (rest : list Token) :
  (match rest with Identifier _ :: _ => False | _ => True end) ->
  parse_prototype (Identifier n :: OpenParenthesis :: map Identifier a ++ rest) =
    match rest with
    | CloseParenthesis :: rest' => Ok (mkPrototype n a, rest')
    | _ => Err "Expected ')' in prototype"%string
    end.
Proof.
  intros Hr. unfold parse_prototype. rewrite (parse_prototype_args_app a rest Hr).
  destruct rest as [|[] rest]; reflexivity.
Qed.

(** "extern n(a...);" parses as the prototype, with no warning, and the
    tokens after the semicolon are left. *)
Theorem parse_extern_statement (n : rstring) (a : list rstring) (rest : list Token) :
  parse (Extern :: Identifier n :: OpenParenthesis :: map Identifier a ++
         CloseParenthesis :: SemiColon :: rest) =
    Ok (PrototypeExpr (mkPrototype n a), None, rest).
Proof.
  unfold parse, parse_statement, parse_extern, parse_prototype.
  rewrite (parse_prototype_args_app a (CloseParenthesis :: SemiColon :: rest) I). reflexivity.
Qed.

(** "def n(a...)" followed by a body parses exactly as the body parsed as a
    top-level expression, wrapped in [FunctionExpr] with the prototype. *)
Theorem parse_definition_statement (n : rstring) (a : list rstring) (body : list Token) :
  (match body with [] | Def :: _ | Extern :: _ => False | _ => True end) ->
  parse (Def :: Identifier n :: OpenParenthesis :: map Identifier a ++ CloseParenthesis :: body) =
    match parse body with
    | Ok (e, w, rest) => Ok (FunctionExpr (mkPrototype n a) e, w, rest)
    | Err err => Err err
    end.
Proof.
  intros Hb. unfold parse, parse_statement, parse_defeinition, parse_prototype.
  rewrite (parse_prototype_args_app a (CloseParenthesis :: body) I).
  destruct body as [|t body]; [contradiction|].
  destruct t; try contradiction;
    (destruct (parse_expression (expr_fuel _) _) as [[e [|[] r]]|err]; reflexivity).
Qed.

(** The tokens "op x1 op x2 ... op xn". *)
Definition op_chain (op : Operator) (xs : list float) : list Token :=
  flat_map (fun x => [TOperator op; Number x]) xs.

(** [parse_op_and_rhs] folds a chain of one operator to the left. *)
Lemma parse_op_and_rhs_chain (op : Operator) (xs : list float) :
  forall fuel lhs rest, List.length xs < fuel -> peek_operator rest = None ->
  parse_op_and_rhs fuel 0 lhs (op_chain op xs ++ rest) =
    Ok (fold_left (fun l x => BinaryOp op l (NumberExpr x)) xs lhs, rest).
Proof.
  induction xs as [|x xs IH]; intros fuel lhs rest Hf Hr.
  - destruct fuel as [|fuel]; [lia|]. simpl.
    destruct rest as [|[] rest]; try reflexivity. discriminate.
  - destruct fuel as [|[|fuel]]; simpl in Hf; [lia|lia|].
    cbn [op_chain flat_map app] in *. fold (op_chain op xs).
    cbn [parse_op_and_rhs parse_primary].
    replace ((get_prec op <? 0)%nat) with false by (symmetry; apply Nat.ltb_ge; lia).
    pose proof (IH (S fuel) (BinaryOp op lhs (NumberExpr x)) rest ltac:(lia) Hr) as IH'.
    destruct xs as [|y ys].
    + cbn [op_chain flat_map app] in *. rewrite Hr. exact IH'.
    + cbn [op_chain flat_map app peek_operator] in *. rewrite Nat.ltb_irrefl. exact IH'.
Qed.

Lemma op_chain_length (op : Operator) (xs : list float) :
  List.length (op_chain op xs) = 2 * List.length xs.
Proof. induction xs as [|x xs IH]; simpl; [reflexivity|]. fold (op_chain op xs). rewrite IH. lia. Qed.

(** "x0 op x1 ... op xn;" with a single operator parses left associated,
    ((x0 op x1) op ...) op xn, whatever the operator. *)
Theorem parse_left_assoc_chain (op : Operator) (x0 : float) (xs : list float) (rest : list Token) :
  parse (Number x0 :: op_chain op xs ++ SemiColon :: rest) =
    Ok (fold_left (fun l x => BinaryOp op l (NumberExpr x)) xs (NumberExpr x0), None, rest).
Proof.
  unfold parse, parse_statement, expr_fuel.
  cbn [List.length]. rewrite length_app, op_chain_length. cbn [List.length].
  replace (2 * S (2 * List.length xs + S (List.length rest)) + 2)
    with (S (S (S (4 * List.length xs + 2 * List.length rest + 3)))) by lia.
  cbn [parse_expression parse_primary].
  rewrite parse_op_and_rhs_chain by (reflexivity || lia). reflexivity.
Qed.

(** The tokens "x, y1, ..., yn". *)
Definition arg_tokens (x : float) (xs : list float) : list Token :=
  Number x :: flat_map (fun y => [Comma; Number y]) xs.

(** [parse_args] collects numeric arguments in order. *)
Lemma parse_args_numbers (xs : list float) :
  forall fuel acc x rest, List.length xs + 2 < fuel ->
  parse_args fuel acc (arg_tokens x xs ++ CloseParenthesis :: rest) =
    Ok (acc ++ map NumberExpr (x :: xs), CloseParenthesis :: rest).
Proof.
  induction xs as [|y ys IH]; intros fuel acc x rest Hf;
    (destruct fuel as [|[|[|fuel]]]; simpl in Hf; [lia|lia|lia|]).
  - reflexivity.
  - change (arg_tokens x (y :: ys) ++ CloseParenthesis :: rest)
      with (Number x :: Comma :: (arg_tokens y ys ++ CloseParenthesis :: rest)).
    change (parse_args (S (S (S fuel))) acc
              (Number x :: Comma :: (arg_tokens y ys ++ CloseParenthesis :: rest)))
      with (parse_args (S (S fuel)) (acc ++ [NumberExpr x])
              (arg_tokens y ys ++ CloseParenthesis :: rest)).
    rewrite IH by lia. rewrite <- app_assoc. reflexivity.
Qed.

(** "f();" and "f(x, y1, ..., yn);" parse as calls of [f] to the
    arguments in their order. *)
Theorem parse_call_numbers (f : rstring) (x : float) (xs : list float) (rest : list Token) :
  parse (Identifier f :: OpenParenthesis :: CloseParenthesis :: SemiColon :: rest) =
    Ok (Call f [], None, rest) /\
  parse (Identifier f :: OpenParenthesis :: arg_tokens x xs ++ CloseParenthesis :: SemiColon :: rest) =
    Ok (Call f (map NumberExpr (x :: xs)), None, rest).
Proof.
  split; [reflexivity|].
  unfold parse, parse_statement, expr_fuel.
  set (n := List.length _).
  assert (Hn : List.length xs + 4 < n).
  { unfold n. cbn [List.length arg_tokens]. rewrite length_app. cbn [List.length].
    assert (List.length xs <= List.length (flat_map (fun y => [Comma; Number y]) xs)).
    { clear. induction xs; simpl; lia. }
    unfold arg_tokens; cbn [List.length]. lia. }
  destruct n as [|[|[|[|[|n]]]]]; [lia|lia|lia|lia|lia|].
  replace (2 * S (S (S (S (S n)))) + 2) with (S (S (S (S (S (S (2 * n + 6))))))) by lia.
  cbn [parse_expression parse_primary arg_tokens].
  fold (arg_tokens x xs).
  rewrite parse_args_numbers by lia. reflexivity.
Qed.

Lemma parse_lexable (ts : list Token) :
  Forall (fun t => match t with Def | Extern | Identifier _ | Number _ => True | _ => False end) ts ->
  match parse ts with
  | Ok (ast, _, _) => match ast with NumberExpr _ | VariableExpr _ => True | _ => False end
  | Err _ => True
  end /\
  match ts with
  | Def :: _ | Extern :: _ => exists e, parse ts = Err e
  | _ => True
  end.
Proof.
  intros H. destruct ts as [|t ts]; [split; exact I|].
  inversion H as [|t' ts' Ht Hts]; subst.
  assert (Hproto : forall ts, Forall (fun t => match t with Def | Extern | Identifier _ | Number _ => True | _ => False end) ts ->
                   exists e, parse_prototype ts = Err e).
  { intros ts0 H0. unfold parse_prototype.
    destruct ts0 as [|t0 ts0]; [eauto|]. destruct t0; try solve [eauto].
    destruct ts0 as [|t1 ts1]; [eauto|]. destruct t1; try solve [eauto].
    exfalso. inversion H0 as [|? ? _ Ha]; subst. inversion Ha as [|? ? Hb _]; exact Hb. }
  destruct t; try contradiction.
  - destruct (Hproto ts Hts) as [e He]. unfold parse, parse_statement, parse_defeinition.
    rewrite He. split; [exact I | eauto].
  - destruct (Hproto ts Hts) as [e He]. unfold parse, parse_statement, parse_extern.
    rewrite He. split; [exact I | eauto].
  - split; [|exact I]. unfold parse, parse_statement, expr_fuel. cbn [List.length].
    replace (2 * S (List.length ts) + 2) with (S (S (S (2 * List.length ts + 1)))) by lia.
    cbn [parse_expression parse_primary].
    destruct ts as [|t ts]; [exact I|].
    inversion Hts as [|? ? Ht2 _]; subst.
    destruct t; try contradiction; cbn [parse_op_and_rhs]; destruct ts as [|[] ?]; exact I.
  - split; [|exact I]. unfold parse, parse_statement, expr_fuel. cbn [List.length].
    replace (2 * S (List.length ts) + 2) with (S (S (S (2 * List.length ts + 1)))) by lia.
    cbn [parse_expression parse_primary parse_op_and_rhs].
    destruct ts as [|t ts]; [exact I|].
    inversion Hts as [|? ? Ht2 _]; subst.
    destruct t; try contradiction; destruct ts as [|[] ?]; exact I.
Qed.

(** On the only tokens the lexer yields (Def, Extern, Identifier, Number),
    [parse] builds nothing but a number or a variable, and every "def" or
    "extern" statement fails: a prototype needs a '(' token. *)
Theorem parse_lexer_tokens (ts : list Token) :
  Forall (fun t => match t with Def | Extern | Identifier _ | Number _ => True | _ => False end) ts ->
  match parse ts with
  | Ok (ast, _, _) => match ast with NumberExpr _ | VariableExpr _ => True | _ => False end
  | Err _ => True
  end /\
  match ts with
  | Def :: _ | Extern :: _ => exists e, parse ts = Err e
  | _ => True
  end.
Proof. exact (parse_lexable ts). Qed.

Lemma parse_prototype_shape_witness :
  parse_prototype [Identifier [102%N]; OpenParenthesis; Identifier [120%N]; CloseParenthesis; Number 1]
    = Ok (mkPrototype [102%N] [[120%N]], [Number 1]).
Proof. exact (parse_prototype_shape [102%N] [[120%N]] [CloseParenthesis; Number 1] I). Defined.

Lemma parse_definition_statement_witness :
  parse [Def; Identifier [102%N]; OpenParenthesis; Identifier [120%N]; CloseParenthesis;
         Identifier [120%N]; SemiColon]
    = Ok (FunctionExpr (mkPrototype [102%N] [[120%N]]) (VariableExpr [120%N]), None, []).
Proof. exact (parse_definition_statement [102%N] [[120%N]] [Identifier [120%N]; SemiColon] I). Defined.

Lemma parse_lexer_tokens_witness :
  parse [Def; Identifier [102%N]] = Err "Expected '(' in prototype"%string /\ (match parse [Def; Identifier [102%N]] with
   | Ok (ast, _, _) => match ast with NumberExpr _ | VariableExpr _ => True | _ => False end
   | Err _ => True end /\
   exists e, parse [Def; Identifier [102%N]] = Err e).
Proof.
  split; [reflexivity|].
  apply (parse_lexer_tokens [Def; Identifier [102%N]]).
  repeat constructor.
Defined.

(** ** More of the IR generator: prototypes and the builder *)

Lemma find_app_prefix {A : Type} (P : A -> bool) (l t : list A) (x : A) :
  find P l = Some x -> find P (l ++ t) = Some x.
Proof.
  induction l as [|h l IH]; simpl; [discriminate|].
  destruct (P h); [exact (fun H => H) | exact IH].
Qed.

Lemma find_app_none {A : Type} (P : A -> bool) (l t : list A) :
  find P l = None -> find P (l ++ t) = find P t.
Proof.
  induction l as [|h l IH]; simpl; [reflexivity|].
  destruct (P h); [discriminate | exact IH].
Qed.

Lemma find_named_map (n : rstring) (u : LFunction -> LFunction) (l : list LFunction) :
  (forall h, fname (u h) = fname h) ->
  find (named n) (map u l) = option_map u (find (named n) l).
Proof.
  intros Hu. induction l as [|h l IH]; simpl; [reflexivity|].
  unfold named at 1 3. rewrite Hu. destruct n; [exact IH|].
  destruct (rstring_eqb (fname h) (c :: n)); [reflexivity | exact IH].
Qed.

(** The functions [gen_proto] leaves: those of [g], with the parameters of
    the one of handle [next_handle g] renamed, then the new function. *)
Lemma gen_proto_funcs (g : IRGenerator) (p : Prototype) :
  let upd := fun h => if Nat.eqb (fid h) (next_handle g)
                      then mkLFunction (fid h) (fname h) (set_param_names [] 0 (args p)) (fblocks h)
                      else h in
  funcs (snd (gen_proto g p)) =
    map upd (funcs g) ++
    [mkLFunction (next_handle g) (fst (create_value_name (map fname (funcs g)) (name p) (str ".")
                                        (last_unique g)))
                 (set_param_names [] 0 (args p)) []].
Proof.
  intros upd. unfold gen_proto, add_function.
  destruct (create_value_name (map fname (funcs g)) (name p) (str ".") (last_unique g)) as [nm lu].
  cbn. rewrite map_app. cbn. rewrite Nat.eqb_refl. reflexivity.
Qed.

(** Declaring a prototype whose name already denotes a function adds a
    function with a fresh handle but another name: the name still denotes
    the function it had, and only that one. *)
Theorem gen_prototype_redeclare (g : IRGenerator) (p : Prototype) (f : LFunction) :
  Reachable g -> get_function g (name p) = Ok f ->
  fst (gen g (PrototypeExpr p)) = Ok (VFunc (next_handle g)) /\
  map fid (funcs (snd (gen g (PrototypeExpr p)))) = map fid (funcs g) ++ [next_handle g] /\
  get_function (snd (gen g (PrototypeExpr p))) (name p) = Ok f /\
  ids_named (snd (gen g (PrototypeExpr p))) (name p) = [fid f].
Proof.
  intros Hr Hf. pose proof (reachable_wf g Hr) as Hwf.
  pose proof (get_function_ids g _ f Hwf Hf) as Hids.
  assert (Hget : get_function (snd (gen_proto g p)) (name p) = Ok f).
  { unfold get_function in *. rewrite gen_proto_funcs.
    destruct (find (named (name p)) (funcs g)) as [h|] eqn:E; [|discriminate].
    injection Hf as ->. erewrite find_app_prefix; [reflexivity|].
    rewrite find_named_map by (intros h; destruct (Nat.eqb _ _); reflexivity).
    rewrite E. cbn [option_map]. f_equal.
    destruct Hwf as (_ & _ & Hb). apply find_some in E as [Hin _].
    rewrite Forall_forall in Hb. specialize (Hb f Hin).
    destruct (Nat.eqb (fid f) (next_handle g)) eqn:Eq; [apply Nat.eqb_eq in Eq; lia | reflexivity]. }
  pose proof (gen_proto_spec g p) as Hs. cbn [gen].
  destruct (gen_proto g p) as [f' g'].
  destruct Hs as (Hfids & Hfid & _ & Hnm & Hfresh & _). cbn [fst snd] in *.
  split; [rewrite Hfid; reflexivity|]. split; [exact Hfids|]. split; [exact Hget|].
  rewrite Hnm, Hids. destruct (named (name p) f') eqn:En; [|apply app_nil_r].
  rewrite (Hfresh _ En) in Hids. discriminate.
Qed.

(** Declaring a prototype under a free, non-empty name declares a function
    of that name, with the next handle, the prototype's parameters and no
    block, and the name then denotes it. *)
Theorem gen_prototype_fresh (g : IRGenerator) (p : Prototype) (e : LLVMError) :
  name p <> [] -> get_function g (name p) = Err e ->
  fst (gen g (PrototypeExpr p)) = Ok (VFunc (next_handle g)) /\
  get_function (snd (gen g (PrototypeExpr p))) (name p) =
    Ok (mkLFunction (next_handle g) (name p) (set_param_names [] 0 (args p)) []).
Proof.
  intros Hne He. pose proof (get_function_err_ids g _ e He) as Hnone.
  apply ids_named_nil, (filter_named_mem _ _ Hne) in Hnone.
  assert (Hcv : fst (create_value_name (map fname (funcs g)) (name p) (str ".") (last_unique g))
                = name p).
  { unfold create_value_name. destruct (name p) as [|c n']; [congruence|]. rewrite Hnone. reflexivity. }
  cbn [gen]. split.
  - unfold gen_proto, add_function.
    destruct (create_value_name (map fname (funcs g)) (name p) (str ".") (last_unique g)). reflexivity.
  - assert (Hg : get_function (snd (gen_proto g p)) (name p) =
                 Ok (mkLFunction (next_handle g) (name p) (set_param_names [] 0 (args p)) [])).
    { unfold get_function in *. rewrite gen_proto_funcs, Hcv.
      rewrite find_app_none.
      - cbn. rewrite named_self by (auto). reflexivity.
      - rewrite find_named_map by (intros h; destruct (Nat.eqb _ _); reflexivity).
        destruct (find (named (name p)) (funcs g)); [discriminate | reflexivity]. }
    destruct (gen_proto g p) as [f' g']. exact Hg.
Qed.

Lemma gen_proto_fst (g : IRGenerator) (p : Prototype) :
  fst (gen_proto g p) =
    mkLFunction (next_handle g)
      (fst (create_value_name (map fname (funcs g)) (name p) (str ".") (last_unique g)))
      (set_param_names [] 0 (args p)) [].
Proof.
  unfold gen_proto, add_function.
  destruct (create_value_name (map fname (funcs g)) (name p) (str ".") (last_unique g)). reflexivity.
Qed.

Lemma mem_false_notin (n : rstring) (t : list rstring) : mem n t = false <-> ~ In n t.
Proof.
  unfold mem. induction t as [|a t IH]; simpl; [tauto|].
  rewrite orb_false_iff, IH.
  destruct (rstring_eqb n a) eqn:E.
  - apply rstring_eqb_true in E. subst. split; [intros [H _]; discriminate | tauto].
  - split; [intros [_ H] [Ha | Ha]; [subst; rewrite rstring_eqb_refl in E; discriminate | tauto]|].
    intros H. split; [reflexivity | tauto].
Qed.

Definition nonempty_name (a : rstring) : bool := match a with [] => false | _ => true end.

Lemma set_param_names_nodup (ns : list rstring) :
  forall table lu, NoDup table ->
  NoDup (table ++ filter nonempty_name (set_param_names table lu ns)).
Proof.
  induction ns as [|n ns IH]; intros table lu Ht; simpl; [rewrite app_nil_r; exact Ht|].
  pose proof (create_value_name_fresh table n [] lu) as Hf.
  destruct (create_value_name table n [] lu) as [nm lu'] eqn:E. cbn [fst] in Hf.
  destruct nm as [|c nm']; [exact (IH table lu' Ht)|].
  destruct Hf as [Hf | Hf]; [discriminate|].
  apply mem_false_notin in Hf.
  cbn [filter nonempty_name]. fold nonempty_name.
  assert (Hnd : NoDup (table ++ [c :: nm'])).
  { apply NoDup_app; [exact Ht | constructor; [intros []|constructor] |].
    intros x Hx [<- | []]. exact (Hf Hx). }
  pose proof (IH (table ++ [c :: nm']) lu' Hnd) as Hx. rewrite <- app_assoc in Hx. exact Hx.
Qed.

Lemma set_param_names_id (ns : list rstring) :
  forall table lu, NoDup ns -> ~ In [] ns -> (forall a, In a ns -> ~ In a table) ->
  set_param_names table lu ns = ns.
Proof.
  induction ns as [|n ns IH]; intros table lu Hd Hne Ht; simpl; [reflexivity|].
  inversion Hd as [|? ? Hn Hd']; subst.
  assert (Hm : mem n table = false) by (apply mem_false_notin, Ht; left; reflexivity).
  unfold create_value_name. destruct n as [|c n']; [exfalso; apply Hne; left; reflexivity|].
  rewrite Hm. f_equal. apply IH; [exact Hd' | intros H; apply Hne; right; exact H|].
  intros a Ha Hin. apply in_app_or in Hin as [Hin | [<- | []]]; [exact (Ht a (or_intror Ha) Hin)|].
  exact (Hn Ha).
Qed.

(** The parameters [gen_proto] names: distinct names, none empty, are kept
    as they are; in any case the named parameters of a function end up
    pairwise distinct, a repeated name being made unique. *)
Theorem set_param_names_spec (ns : list rstring) :
  NoDup (filter nonempty_name (set_param_names [] 0 ns)) /\
  (NoDup ns -> ~ In [] ns -> set_param_names [] 0 ns = ns).
Proof.
  split.
  - exact (set_param_names_nodup ns [] 0 (NoDup_nil _)).
  - intros Hd Hne. apply set_param_names_id; [exact Hd | exact Hne | intros a _ []].
Qed.

Lemma update_keeps (g : IRGenerator) (id : nat) (u : list Block -> list Block) (h : LFunction) :
  In h (funcs g) -> fid h <> id -> In h (funcs (update_function g id u)).
Proof.
  intros Hin Hne. unfold update_function, set_funcs. cbn [funcs].
  apply in_map_iff. exists h. split; [|exact Hin].
  destruct (Nat.eqb (fid h) id) eqn:E; [apply Nat.eqb_eq in E; contradiction | reflexivity].
Qed.

Lemma emits_keeps (g g' : IRGenerator) (id bi : nat) (h : LFunction) :
  emits g g' -> insert_point g = Some (id, bi) -> In h (funcs g) -> fid h <> id ->
  In h (funcs g').
Proof.
  intros Hem Hip Hin Hne.
  apply (emits_keep (fun k => insert_point k = Some (id, bi) /\ In h (funcs k)) ) with g;
    [|exact Hem|split; assumption].
  intros k ins [Hk Hh]. rewrite emit_insert_point. split; [exact Hk|].
  unfold emit. rewrite Hk. apply update_keeps; [exact Hh | exact Hne].
Qed.

(** A definition with an expression body, whether it succeeds or fails,
    leaves every other function of the module as it was. *)
Theorem gen_function_frame (g : IRGenerator) (proto : Prototype) (body : ExprAST) (h : LFunction) :
  is_expr body = true -> In h (funcs g) -> fid h <> fid (fst (def_function g proto)) ->
  In h (funcs (snd (gen g (FunctionExpr proto body)))).
Proof.
  intros Hb Hin Hne. cbn [gen].
  assert (H1 : In h (funcs (snd (def_function g proto)))).
  { unfold def_function in *. destruct (get_function g (name proto)); [exact Hin|].
    rewrite gen_proto_fst in Hne. cbn [fid] in Hne.
    rewrite gen_proto_funcs. apply in_or_app. left. apply in_map_iff. exists h. split; [|exact Hin].
    destruct (Nat.eqb (fid h) (next_handle g)) eqn:E; [apply Nat.eqb_eq in E; contradiction | reflexivity]. }
  destruct (def_function g proto) as [f g1]. cbn [fst snd] in *.
  assert (H2 : In h (funcs (enter_function g1 f))).
  { unfold enter_function, create_basic_block. apply update_keeps; assumption. }
  assert (Hip : exists bi, insert_point (enter_function g1 f) = Some (fid f, bi)).
  { unfold enter_function, create_basic_block. eexists. reflexivity. }
  destruct Hip as [bi Hip].
  pose proof (gen_expr_emits body Hb (enter_function g1 f)) as Hem.
  pose proof (emits_keeps _ _ _ _ h Hem Hip H2 Hne) as H3.
  pose proof (emits_keep (fun k => insert_point k = Some (fid f, bi)) 
                (fun k ins Hk => eq_trans (emit_insert_point k ins) Hk) _ _ Hem Hip) as Hip3.
  destruct (gen (enter_function g1 f) body) as [[v|err] g5]; cbn [finish_function snd] in *.
  - unfold create_ret. pose proof (emits_keeps g5 (snd (emit g5 (IRet v))) _ _ h
                                     (emits_one g5 (IRet v)) Hip3 H3 Hne) as H4.
    destruct (emit g5 (IRet v)). exact H4.
  - unfold delete, set_funcs. cbn [funcs]. apply filter_In. split; [exact H3|].
    destruct (Nat.eqb (fid h) (fid f)) eqn:E; [apply Nat.eqb_eq in E; contradiction | reflexivity].
Qed.

Lemma emits_building_prefix (f : LFunction) (pre : list Block) (g g' : IRGenerator) :
  emits g g' -> forall nb, building f pre nb g -> exists nb', building f pre (nb ++ nb') g'.
Proof.
  induction 1 as [g|g ins g' _ IH]; intros nb Hb.
  - exists []. rewrite app_nil_r. exact Hb.
  - destruct (IH _ (emit_building f pre nb g ins Hb)) as [nb' Hnb'].
    exists ((next_handle g, ins) :: nb'). rewrite <- app_assoc in Hnb'. exact Hnb'.
Qed.

(** The function [def_function] picks is the one of its handle. *)
Lemma def_function_find (g : IRGenerator) (proto : Prototype) :
  wf g ->
  find_function (snd (def_function g proto)) (fid (fst (def_function g proto))) =
    Some (fst (def_function g proto)).
Proof.
  intros Hwf. unfold def_function.
  destruct (get_function g (name proto)) as [f|e] eqn:Eg; [exact (find_function_get g _ f Hwf Eg)|].
  rewrite gen_proto_fst. cbn [fid]. unfold find_function. rewrite gen_proto_funcs.
  rewrite find_app_none.
  - cbn. rewrite Nat.eqb_refl. reflexivity.
  - destruct Hwf as (_ & _ & Hb). induction (funcs g) as [|h l IH]; [reflexivity|].
    inversion Hb as [|? ? Hh Hl]; subst. cbn [map find].
    destruct (Nat.eqb (fid h) (next_handle g)) eqn:E; [apply Nat.eqb_eq in E; lia|].
    rewrite E. exact (IH Hl).
Qed.

(** After a successful definition with an expression body, the builder is
    left after the [ret] of the function's new block: the instructions of a
    later top-level expression are appended there, after the [ret]. *)
Theorem gen_toplevel_after_ret (g g' : IRGenerator) (proto : Prototype) (body e : ExprAST)
    (v : LLVMValue) :
  Reachable g -> is_expr body = true -> is_expr e = true ->
  gen g (FunctionExpr proto body) = (Ok v, g') ->
  let f := fst (def_function g proto) in
  exists (nb : Block) (i : nat) (rv : LLVMValue) (nb' : Block),
    find_function (snd (gen g' e)) (fid f) =
      Some (mkLFunction (fid f) (fname f) (fparams f) (fblocks f ++ [nb ++ (i, IRet rv) :: nb'])).
Proof.
  intros Hr Hb He H f.
  pose proof (def_function_find g proto (reachable_wf g Hr)) as Hfind.
  cbn [gen] in H. subst f. destruct (def_function g proto) as [f g1]. cbn [fst snd] in *.
  pose proof (emits_building_prefix f (fblocks f) _ _ (gen_expr_emits body Hb (enter_function g1 f))
                [] (enter_building g1 f Hfind)) as [nb Hnb].
  destruct (gen (enter_function g1 f) body) as [[v0|e0] g5]; cbn [finish_function snd] in H, Hnb;
    [|discriminate].
  pose proof (emit_building f (fblocks f) _ g5 (IRet v0) Hnb) as Hret.
  unfold create_ret in H. destruct (emit g5 (IRet v0)) as [rv g6] eqn:Eg6.
  injection H as _ <-. cbn [snd] in Hret.
  destruct (emits_building_prefix f (fblocks f) _ _ (gen_expr_emits e He g6) _ Hret) as [nb' [Hg _]].
  exists nb, (next_handle g5), v0, nb'. rewrite Hg, <- app_assoc. reflexivity.
Qed.

Lemma gen_prototype_redeclare_witness :
  let g := snd (gen IRGenerator_new (PrototypeExpr (mkPrototype (str "f") [str "x"]))) in
  let p := mkPrototype (str "f") [str "y"; str "z"] in
  let f := mkLFunction 0 (str "f") [str "x"] [] in
  Reachable g /\ get_function g (name p) = Ok f /\
  get_function (snd (gen g (PrototypeExpr p))) (name p) = Ok f /\
  fname (mkLFunction 1 (str "f.1") [str "y"; str "z"] []) <> str "f" /\
  funcs (snd (gen g (PrototypeExpr p))) =
    [f; mkLFunction 1 (str "f.1") [str "y"; str "z"] []].
Proof.
  intros g p f.
  assert (Hr : Reachable g) by (apply reach_gen, reach_new).
  assert (Hf : get_function g (name p) = Ok f) by (vm_compute; reflexivity).
  split; [exact Hr | split; [exact Hf | split]].
  - exact (proj1 (proj2 (proj2 (gen_prototype_redeclare g p f Hr Hf)))).
  - split; [vm_compute; discriminate | vm_compute; reflexivity].
Defined.

Lemma gen_prototype_fresh_witness :
  let p := mkPrototype (str "f") [str "x"; str "x"] in
  get_function (snd (gen IRGenerator_new (PrototypeExpr p))) (str "f") =
    Ok (mkLFunction 0 (str "f") (set_param_names [] 0 [str "x"; str "x"]) []) /\
  set_param_names [] 0 [str "x"; str "x"] = [str "x"; str "x1"].
Proof.
  intros p. split; [|vm_compute; reflexivity].
  refine (proj2 (gen_prototype_fresh IRGenerator_new p (FunctionNotFound (str "f")) _ _)).
  - vm_compute. discriminate.
  - vm_compute. reflexivity.
Defined.

Lemma set_param_names_spec_witness :
  NoDup [str "a"; str "b"] /\ ~ In [] [str "a"; str "b"] /\
  set_param_names [] 0 [str "a"; str "b"] = [str "a"; str "b"].
Proof.
  assert (Hd : NoDup [str "a"; str "b"]).
  { constructor; [vm_compute; intros [H | []]; discriminate|].
    constructor; [intros []|constructor]. }
  assert (Hn : ~ In [] [str "a"; str "b"]) by (vm_compute; intros [H | [H | []]]; discriminate).
  split; [exact Hd | split; [exact Hn|]].
  exact (proj2 (set_param_names_spec [str "a"; str "b"]) Hd Hn).
Defined.

Lemma gen_function_frame_witness :
  let g := snd (gen IRGenerator_new (PrototypeExpr (mkPrototype (str "g") []))) in
  let proto := mkPrototype (str "f") [str "x"] in
  let body := VariableExpr (str "y") in
  let h := mkLFunction 0 (str "g") [] [] in
  is_expr body = true /\ In h (funcs g) /\ fid h <> fid (fst (def_function g proto)) /\
  In h (funcs (snd (gen g (FunctionExpr proto body)))).
Proof.
  intros g proto body h.
  assert (Hb : is_expr body = true) by reflexivity.
  assert (Hin : In h (funcs g)) by (vm_compute; left; reflexivity).
  assert (Hne : fid h <> fid (fst (def_function g proto))) by (vm_compute; lia).
  split; [exact Hb | split; [exact Hin | split; [exact Hne|]]].
  exact (gen_function_frame g proto body h Hb Hin Hne).
Defined.

Lemma gen_toplevel_after_ret_witness :
  let g := IRGenerator_new in
  let proto := mkPrototype (str "f") [str "x"] in
  let body := VariableExpr (str "x") in
  let e := BinaryOp Plus (VariableExpr (str "x")) (NumberExpr 1) in
  let g' := snd (gen g (FunctionExpr proto body)) in
  gen g (FunctionExpr proto body) = (Ok (VFunc 0), g') /\
  find_function (snd (gen g' e)) 0 =
    Some (mkLFunction 0 (str "f") [str "x"] [[(1, IRet (VArg 0 0)); (2, IFAdd (VArg 0 0) (VConst 1))]]) /\
  exists (nb : Block) (i : nat) (rv : LLVMValue) (nb' : Block),
    find_function (snd (gen g' e)) (fid (fst (def_function g proto))) =
      Some (mkLFunction (fid (fst (def_function g proto))) (fname (fst (def_function g proto)))
              (fparams (fst (def_function g proto)))
              (fblocks (fst (def_function g proto)) ++ [nb ++ (i, IRet rv) :: nb'])).
Proof.
  intros g proto body e g'.
  assert (H : gen g (FunctionExpr proto body) = (Ok (VFunc 0), g')) by (vm_compute; reflexivity).
  split; [exact H | split; [vm_compute; reflexivity|]].
  exact (gen_toplevel_after_ret g g' proto body e (VFunc 0) reach_new eq_refl eq_refl H).
Defined.

(** Expressions built from numbers and operators only. *)
Fixpoint numbers_only (e : ExprAST) : bool :=
  match e with
  | NumberExpr _ => true
  | BinaryOp _ l r => numbers_only l && numbers_only r
  | _ => false
  end.

(** An expression of numbers and operators is folded to a constant by the
    builder: [gen] succeeds with a constant and emits nothing, wherever
    the builder stands. *)
Theorem gen_constant_fold (e : ExprAST) :
  numbers_only e = true -> forall g, exists x, gen g e = (Ok (VConst x), g).
Proof.
  induction e as [v| |op l IHl r IHr| | |]; intros He g; cbn [numbers_only] in He; try discriminate.
  - exists v. reflexivity.
  - apply andb_prop in He as [Hl Hr].
    destruct (IHl Hl g) as [x Hx]. destruct (IHr Hr g) as [y Hy].
    cbn [gen]. rewrite Hx, Hy.
    destruct op; eexists; reflexivity.
Qed.

Lemma gen_constant_fold_witness :
  numbers_only (BinaryOp LessThan (NumberExpr 1) (BinaryOp Plus (NumberExpr 2) (NumberExpr 3))) = true /\
  gen IRGenerator_new (BinaryOp LessThan (NumberExpr 1) (BinaryOp Plus (NumberExpr 2) (NumberExpr 3)))
    = (Ok (VConst 1), IRGenerator_new) /\
  exists x, gen IRGenerator_new
              (BinaryOp LessThan (NumberExpr 1) (BinaryOp Plus (NumberExpr 2) (NumberExpr 3)))
            = (Ok (VConst x), IRGenerator_new).
Proof.
  split; [reflexivity | split; [vm_compute; reflexivity|]].
  exact (gen_constant_fold (BinaryOp LessThan (NumberExpr 1) (BinaryOp Plus (NumberExpr 2) (NumberExpr 3))) eq_refl IRGenerator_new).
Defined.

(** ** The read-eval loop (main.rs) *)

(** [char::is_whitespace]: the characters of Unicode's White_Space. *)
Definition is_whitespace (c : char) : bool :=
  ((9 <=? c)%N && (c <=? 13)%N) || (c =? 32)%N || (c =? 133)%N || (c =? 160)%N ||
  (c =? 5760)%N || ((8192 <=? c)%N && (c <=? 8202)%N) || (c =? 8232)%N ||
  (c =? 8233)%N || (c =? 8239)%N || (c =? 8287)%N || (c =? 12288)%N.

Fixpoint trim_start (s : rstring) : rstring :=
  match s with
  | c :: r => if is_whitespace c then trim_start r else s
  | [] => []
  end.

(** [str::trim]. *)
Definition trim (s : rstring) : rstring := rev (trim_start (rev (trim_start s))).

(** [lexer.collect::<Result<Vec<_>, _>>()]: the tokens up to [None], or
    the first error; [next] is not called again after an error. The fuel
    is one call to [next] per character left, and one more. *)
Fixpoint collect_fuel (fuel : nat) (s : Lexer) : Result (list Token) LexerError :=
  match fuel with
  | O => Ok []
  | S fuel =>
      match next s with
      | (None, _) => Ok []
      | (Some (Err e), _) => Err e
      | (Some (Ok t), s') =>
          match collect_fuel fuel s' with
          | Ok ts => Ok (t :: ts)
          | Err e => Err e
          end
      end
  end.

Definition collect (s : Lexer) : Result (list Token) LexerError :=
  collect_fuel (S (lexer_size s)) s.

(** What one turn of the loop of [main] does with the line it read: the
    messages it prints, as values. *)
Inductive Outcome : Type :=
| Skipped
| Quit
| LexFailed (e : LexerError)
| ParseFailed (e : ParserError)
| Generated (v : LLVMValue)
| GenFailed (e : LLVMError).

Definition repl_line (g : IRGenerator) (buffer : rstring) : Outcome * IRGenerator :=
  match trim buffer with
  | [] => (Skipped, g)
  | t =>
      if rstring_eqb t (str "quit") then (Quit, g)
      else
        match collect (Lexer_new buffer) with
        | Err e => (LexFailed e, g)
        | Ok tokens =>
            match parse tokens with
            | Err e => (ParseFailed e, g)
            | Ok (ast, _, _) =>
                match gen g ast with
                | (Ok v, g) => (Generated v, g)
                | (Err e, g) => (GenFailed e, g)
                end
            end
        end
  end.

(** The loop of [main] for [fuel] turns, on the lines [read_line] returns,
    each with its line break; once the input is exhausted [read_line]
    leaves the buffer empty. The outcomes, the generator, and whether the
    loop broke out. *)
Fixpoint repl (fuel : nat) (g : IRGenerator) (input : list rstring)
  : list Outcome * IRGenerator * bool :=
  match fuel with
  | O => ([], g, false)
  | S fuel =>
      let (buffer, input) := match input with
                             | [] => ([], [])
                             | l :: r => (l, r)
                             end in
      match repl_line g buffer with
      | (Quit, g) => ([Quit], g, true)
      | (o, g) => let '(os, g, q) := repl fuel g input in (o :: os, g, q)
      end
  end.

(** Once the input is exhausted, every turn reads an empty line and skips
    it: the loop never ends, and nothing else happens. *)
Theorem repl_eof_spins (fuel : nat) (g : IRGenerator) :
  repl fuel g [] = (repeat Skipped fuel, g, false).
Proof.
  induction fuel as [|fuel IH]; [reflexivity|]. cbn [repl]. unfold repl_line at 1.
  cbn [trim trim_start rev]. rewrite IH. reflexivity.
Qed.

(** The loop only ends on a line that trims to "quit": on an input with no
    such line it never ends, however many turns it runs. *)
Theorem repl_runs_until_quit (input : list rstring) :
  Forall (fun l => trim l <> str "quit") input ->
  forall fuel g, snd (repl fuel g input) = false.
Proof.
  intros Hin fuel. revert input Hin. induction fuel as [|fuel IH]; intros input Hin g; [reflexivity|].
  cbn [repl].
  assert (Hl : forall l rest, Forall (fun l => trim l <> str "quit") rest ->
                 trim l <> str "quit" ->
                 snd (match repl_line g l with
                      | (Quit, g) => ([Quit], g, true)
                      | (o, g) => let '(os, g, q) := repl fuel g rest in (o :: os, g, q)
                      end) = false).
  { intros l rest Hrest Hq.
    assert (Hnq : fst (repl_line g l) <> Quit).
    { unfold repl_line. destruct (trim l) as [|c t] eqn:Et; [discriminate|].
      destruct (rstring_eqb (c :: t) (str "quit")) eqn:Eq.
      - apply rstring_eqb_true in Eq. congruence.
      - destruct (collect (Lexer_new l)) as [ts|e]; [|discriminate].
        destruct (parse ts) as [[[ast w] r]|e]; [|discriminate].
        destruct (gen g ast) as [[v|e] g']; discriminate. }
    destruct (repl_line g l) as [o g1].
    destruct o; try (cbn [fst] in Hnq; congruence);
      specialize (IH rest Hrest g1); destruct (repl fuel g1 rest) as [[os g2] q]; exact IH. }
  destruct input as [|l rest].
  - apply Hl; [constructor | cbn; discriminate].
  - inversion Hin; subst. apply Hl; assumption.
Qed.

Lemma trim_start_ws (ws s : rstring) :
  forallb is_whitespace ws = true -> trim_start (ws ++ s) = trim_start s.
Proof.
  induction ws as [|c ws IH]; simpl; [reflexivity|].
  intros H. apply andb_prop in H as [Hc Hws]. rewrite Hc. exact (IH Hws).
Qed.

(** A line reading "quit", with any whitespace around it (its line break
    included), ends the loop at once, the generator untouched. *)
Theorem repl_quit_padded (ws1 ws2 : rstring) (fuel : nat) (g : IRGenerator) (rest : list rstring) :
  forallb is_whitespace ws1 = true -> forallb is_whitespace ws2 = true ->
  repl (S fuel) g ((ws1 ++ str "quit" ++ ws2) :: rest) = ([Quit], g, true).
Proof.
  intros H1 H2. cbn [repl]. unfold repl_line.
  assert (Ht : trim (ws1 ++ str "quit" ++ ws2) = str "quit").
  { unfold trim. rewrite trim_start_ws by exact H1.
    change (trim_start (str "quit" ++ ws2)) with (str "quit" ++ ws2).
    assert (H2' : forallb is_whitespace (rev ws2) = true).
    { apply forallb_forall. intros x Hx. apply in_rev in Hx.
      rewrite forallb_forall in H2. exact (H2 x Hx). }
    rewrite rev_app_distr, (trim_start_ws _ _ H2'). reflexivity. }
  rewrite Ht. reflexivity.
Qed.

Lemma collect_fuel_kinds (fuel : nat) :
  forall s ts, collect_fuel fuel s = Ok ts ->
  Forall (fun t => match t with Def | Extern | Identifier _ | Number _ => True | _ => False end) ts.
Proof.
  induction fuel as [|fuel IH]; intros s ts H; cbn [collect_fuel] in H.
  - injection H as <-. constructor.
  - pose proof (next_progress s) as Hp.
    destruct (next s) as [[[t|e]|] s']; [|discriminate|injection H as <-; constructor].
    destruct Hp as [_ Ht].
    destruct (collect_fuel fuel s') as [ts'|e] eqn:E; [|discriminate].
    injection H as <-. constructor; [exact Ht | exact (IH s' ts' E)].
Qed.

Definition repl_outcome_ok (o : Outcome) : Prop :=
  match o with
  | Generated v => exists x, v = VConst x
  | GenFailed e => exists n, e = VariableNotFound n
  | _ => True
  end.

Lemma repl_line_new (l : rstring) :
  snd (repl_line IRGenerator_new l) = IRGenerator_new /\
  repl_outcome_ok (fst (repl_line IRGenerator_new l)).
Proof.
  unfold repl_line. destruct (trim l) as [|c t]; [split; exact I || reflexivity|].
  destruct (rstring_eqb (c :: t) (str "quit")); [split; exact I || reflexivity|].
  destruct (collect (Lexer_new l)) as [ts|e] eqn:Ec; [|split; exact I || reflexivity].
  pose proof (proj1 (parse_lexable ts (collect_fuel_kinds _ _ _ Ec))) as Hp.
  destruct (parse ts) as [[[ast w] r]|e]; [|split; exact I || reflexivity].
  destruct ast; try contradiction.
  - split; [reflexivity | eexists; reflexivity].
  - split; [reflexivity | eexists; reflexivity].
Qed.

(** The loop of [main] never changes its generator: the lexer yields no
    parenthesis, so no "def" or "extern" line parses, and no function is
    ever declared or defined. A line is at most evaluated to a constant, or
    fails on an unknown variable. *)
Theorem repl_never_defines (fuel : nat) (input : list rstring) :
  snd (fst (repl fuel IRGenerator_new input)) = IRGenerator_new /\
  Forall repl_outcome_ok (fst (fst (repl fuel IRGenerator_new input))).
Proof.
  revert input. induction fuel as [|fuel IH]; intros input; [split; [reflexivity | constructor]|].
  cbn [repl].
  destruct (match input with [] => ([], []) | l :: r => (l, r) end) as [l rest].
  pose proof (repl_line_new l) as [Hg Ho].
  destruct (repl_line IRGenerator_new l) as [o g1]. cbn [fst snd] in Hg, Ho. subst g1.
  specialize (IH rest).
  destruct o; try (destruct (repl fuel IRGenerator_new rest) as [[os g2] q];
                   destruct IH as [IHg IHo]; split; [exact IHg | constructor; assumption]).
  split; [reflexivity | repeat constructor].
Qed.

Lemma repl_runs_until_quit_witness :
  Forall (fun l => trim l <> str "quit") [str "1"; str "x"] /\
  repl 4 IRGenerator_new [str "1"; str "x"] =
    ([Generated (VConst 1); GenFailed (VariableNotFound (str "x")); Skipped; Skipped],
     IRGenerator_new, false) /\
  snd (repl 4 IRGenerator_new [str "1"; str "x"]) = false.
Proof.
  assert (H : Forall (fun l => trim l <> str "quit") [str "1"; str "x"]).
  { repeat constructor; vm_compute; discriminate. }
  split; [exact H | split; [vm_compute; reflexivity|]].
  exact (repl_runs_until_quit _ H 4 IRGenerator_new).
Defined.

Lemma repl_quit_padded_witness :
  forallb is_whitespace [32%N; 9%N] = true /\ forallb is_whitespace [10%N] = true /\
  repl 1 IRGenerator_new (([32%N; 9%N] ++ str "quit" ++ [10%N]) :: []) = ([Quit], IRGenerator_new, true).
Proof.
  split; [reflexivity | split; [reflexivity|]].
  exact (repl_quit_padded [32%N; 9%N] [10%N] 0 IRGenerator_new [] eq_refl eq_refl).
Defined.
